(** * bolt.ast: the node model of the bolt scripting language

    A shallow embedding of [bolt/ast.py].  The module is a table of frozen
    dataclasses; what it computes is what the [dataclass] decorator
    generates for each of them: the constructor, attribute access, the
    refusal of assignment, equality and hashing.  The embedding keeps the
    class table as it is written in the source and gives those generated
    methods as functions over it.  The classes derive from classes of
    mecha and use helpers of beet and tokenstream; what these bring in is
    stated where it enters. *)

From Stdlib Require Import List String Ascii ZArith Bool Lia PeanoNat.
From Stdlib Require Import Permutation.
Import ListNotations.
Open Scope string_scope.

Set Warnings "-register-all".

(** ** Classes *)

(** The classes the module defines, in the order of [__all__]. *)
Inductive class : Type :=
| AstModuleRoot
| AstExpression
| AstExpressionBinary
| AstExpressionUnary
| AstValue
| AstIdentifier
| AstFormatString
| AstTuple
| AstList
| AstDictItem
| AstDict
| AstSlice
| AstUnpack
| AstKeyword
| AstAttribute
| AstLookup
| AstCall
| AstTarget
| AstTargetIdentifier
| AstTargetUnpack
| AstTargetAttribute
| AstTargetItem
| AstAssignment
| AstDecorator
| AstFunctionSignature
| AstFunctionSignatureArgument
| AstDeferredRoot
| AstMacroLiteral
| AstMacroArgument
| AstMacroMatch
| AstMacroMatchLiteral
| AstMacroMatchArgument
| AstInterpolation
| AstImportedIdentifier.

(** The base classes imported from mecha. *)
Inductive host_class : Type :=
| AstNode
| AstRoot
| AstLiteral.

Inductive base_ref : Type :=
| Host (h : host_class)
| Bolt (c : class).

(** Classes of the objects a node can hold that are defined in other
    packages: [TokenStream] and [SourceLocation] of tokenstream, mecha's
    [AstCommand], [AstResourceLocation] and [AstJson], and whatever else
    reaches an attribute annotated [Any]. *)
Inductive foreign : Type :=
| TokenStream
| SourceLocation
| AstCommand
| AstResourceLocation
| AstJson
| OtherObject.

Definition class_eq_dec (a b : class) : {a = b} + {a <> b}.
Proof. decide equality. Defined.

Definition class_eqb (a b : class) : bool :=
  if class_eq_dec a b then true else false.

Definition foreign_eq_dec (a b : foreign) : {a = b} + {a <> b}.
Proof. decide equality. Defined.

Definition foreign_eqb (a b : foreign) : bool :=
  if foreign_eq_dec a b then true else false.

(** ** Values *)

(** Python values that occur as attribute values.  A node is an instance of
    one of the classes above with the values of its fields, in field order.
    An object of a foreign class is a reference: it has an identity, and its
    comparison and hashing are defined outside this module; it compares
    equal to objects of foreign classes only.  Floating-point numbers are
    left out. *)
Inductive value : Type :=
| VNone
| VBool (b : bool)
| VInt (n : Z)
| VStr (s : string)
| VTuple (items : list value)
| VList (items : list value)
| VNode (c : class) (attrs : list value)
| VRef (k : foreign) (addr : nat).

(** Modelled from the spec: mecha's [AstChildren] is not part of this
    repository.  The spec describes it as the ordered, structurally-equal,
    iterable child container; it is taken to be a tuple, and [AstChildren()]
    the empty one. *)
Definition AstChildren (items : list value) : value := VTuple items.

(** ** Field and class declarations *)

Inductive annotation : Type :=
| T_str
| T_bool
| T_Any
| T_node (c : class)
| T_foreign (k : foreign)
| T_Optional (a : annotation)
| T_Union (a b : annotation)
| T_AstChildren (a : annotation).

(** The right-hand side of a field declaration. *)
Inductive default : Type :=
| required_field
| default_value (v : value).

(** A field: its name, its annotation, its default, and whether it takes
    part in comparison and hashing. *)
Record field_decl : Type := MkField {
  fname : string;
  fannot : annotation;
  fdefault : default;
  fcompare : bool
}.

(** A field as the class statements of this module write it,
    [name: annotation = default]: it takes part in comparison and
    hashing. *)
Definition Field (name : string) (a : annotation) (d : default) : field_decl :=
  MkField name a d true.

(** Class attributes without annotation: they are not fields. *)
Inductive class_attr : Type :=
| CStr (s : string)
| CRegex (pattern : string -> bool).

Record class_decl : Type := Class {
  cname : string;
  cbase : base_ref;
  cfrozen : bool;
  cattrs : list (string * class_attr);
  cfields : list field_decl
}.

(** Modelled from the spec: [bolt/pattern.py], which defines
    [IDENTIFIER_PATTERN], is not among the sources.  The spec calls it the
    identifier lexical pattern: a letter or an underscore, followed by
    letters, digits and underscores. *)
Definition is_letter (a : ascii) : bool :=
  let n := nat_of_ascii a in
  (((65 <=? n) && (n <=? 90)) || ((97 <=? n) && (n <=? 122)) || (n =? 95))%nat.

Definition is_digit (a : ascii) : bool :=
  let n := nat_of_ascii a in ((48 <=? n) && (n <=? 57))%nat.

Fixpoint all_chars (p : ascii -> bool) (s : string) : bool :=
  match s with
  | EmptyString => true
  | String a rest => p a && all_chars p rest
  end.

Definition IDENTIFIER_PATTERN (s : string) : bool :=
  match s with
  | EmptyString => false
  | String a rest =>
      is_letter a && all_chars (fun x => is_letter x || is_digit x) rest
  end.

Definition expression_or_slice : annotation :=
  T_Union (T_node AstExpression) (T_node AstSlice).

(** The class table, one entry per class statement of the source. *)
Definition decl (c : class) : class_decl :=
  match c with
  | AstModuleRoot =>
      Class "AstModuleRoot" (Host AstRoot) true [] []
  | AstExpression =>
      Class "AstExpression" (Host AstNode) true [] []
  | AstExpressionBinary =>
      Class "AstExpressionBinary" (Bolt AstExpression) true []
        [ Field "operator" T_str required_field;
          Field "left" (T_node AstExpression) required_field;
          Field "right" (T_node AstExpression) required_field ]
  | AstExpressionUnary =>
      Class "AstExpressionUnary" (Bolt AstExpression) true []
        [ Field "operator" T_str required_field;
          Field "value" (T_node AstExpression) required_field ]
  | AstValue =>
      Class "AstValue" (Bolt AstExpression) true []
        [ Field "value" T_Any required_field ]
  | AstIdentifier =>
      Class "AstIdentifier" (Bolt AstExpression) true []
        [ Field "value" T_str required_field ]
  | AstFormatString =>
      Class "AstFormatString" (Bolt AstExpression) true []
        [ Field "fmt" T_str required_field;
          Field "values" (T_AstChildren (T_node AstExpression)) required_field ]
  | AstTuple =>
      Class "AstTuple" (Bolt AstExpression) true []
        [ Field "items" (T_AstChildren (T_node AstExpression)) required_field ]
  | AstList =>
      Class "AstList" (Bolt AstExpression) true []
        [ Field "items" (T_AstChildren (T_node AstExpression)) required_field ]
  | AstDictItem =>
      Class "AstDictItem" (Host AstNode) true []
        [ Field "key" (T_node AstExpression) required_field;
          Field "value" (T_node AstExpression) required_field ]
  | AstDict =>
      Class "AstDict" (Bolt AstExpression) true []
        [ Field "items" (T_AstChildren (T_node AstDictItem)) required_field ]
  | AstSlice =>
      Class "AstSlice" (Host AstNode) true []
        [ Field "start" (T_Optional (T_node AstExpression)) (default_value VNone);
          Field "stop" (T_Optional (T_node AstExpression)) (default_value VNone);
          Field "step" (T_Optional (T_node AstExpression)) (default_value VNone) ]
  | AstUnpack =>
      Class "AstUnpack" (Host AstNode) true []
        [ Field "type" T_str required_field;
          Field "value" (T_node AstExpression) required_field ]
  | AstKeyword =>
      Class "AstKeyword" (Host AstNode) true []
        [ Field "name" T_str required_field;
          Field "value" (T_node AstExpression) required_field ]
  | AstAttribute =>
      Class "AstAttribute" (Bolt AstExpression) true []
        [ Field "name" T_str required_field;
          Field "value" (T_node AstExpression) required_field ]
  | AstLookup =>
      Class "AstLookup" (Bolt AstExpression) true []
        [ Field "value" (T_node AstExpression) required_field;
          Field "arguments" (T_AstChildren expression_or_slice) required_field ]
  | AstCall =>
      Class "AstCall" (Bolt AstExpression) true []
        [ Field "value" (T_node AstExpression) required_field;
          Field "arguments"
            (T_AstChildren
               (T_Union (T_node AstExpression)
                  (T_Union (T_node AstUnpack) (T_node AstKeyword))))
            required_field ]
  | AstTarget =>
      Class "AstTarget" (Host AstNode) true [] []
  | AstTargetIdentifier =>
      Class "AstTargetIdentifier" (Bolt AstTarget) true []
        [ Field "value" T_str required_field;
          Field "rebind" T_bool (default_value (VBool false)) ]
  | AstTargetUnpack =>
      Class "AstTargetUnpack" (Bolt AstTarget) true []
        [ Field "targets" (T_AstChildren (T_node AstTarget)) required_field ]
  | AstTargetAttribute =>
      Class "AstTargetAttribute" (Bolt AstTarget) true []
        [ Field "name" T_str required_field;
          Field "value" (T_node AstExpression) required_field ]
  | AstTargetItem =>
      Class "AstTargetItem" (Bolt AstTarget) true []
        [ Field "value" (T_node AstExpression) required_field;
          Field "arguments" (T_AstChildren expression_or_slice) required_field ]
  | AstAssignment =>
      Class "AstAssignment" (Host AstNode) true []
        [ Field "operator" T_str required_field;
          Field "target" (T_node AstTarget) required_field;
          Field "value" (T_node AstExpression) required_field ]
  | AstDecorator =>
      Class "AstDecorator" (Host AstNode) true []
        [ Field "expression" (T_node AstExpression) required_field ]
  | AstFunctionSignatureArgument =>
      Class "AstFunctionSignatureArgument" (Host AstNode) true []
        [ Field "name" T_str required_field;
          Field "default" (T_Optional (T_node AstExpression)) (default_value VNone) ]
  | AstFunctionSignature =>
      Class "AstFunctionSignature" (Host AstNode) true []
        [ Field "decorators" (T_AstChildren (T_node AstDecorator))
            (default_value (AstChildren []));
          Field "name" T_str required_field;
          Field "arguments" (T_AstChildren (T_node AstFunctionSignatureArgument))
            required_field ]
  | AstDeferredRoot =>
      Class "AstDeferredRoot" (Host AstNode) true []
        [ Field "stream" (T_foreign TokenStream) required_field ]
  | AstMacroLiteral =>
      Class "AstMacroLiteral" (Host AstLiteral) true
        [ ("parser", CStr "bolt_macro_literal") ] []
  | AstMacroArgument =>
      Class "AstMacroArgument" (Host AstLiteral) true
        [ ("parser", CStr "bolt_macro_argument");
          ("regex", CRegex IDENTIFIER_PATTERN) ] []
  | AstMacroMatch =>
      Class "AstMacroMatch" (Host AstNode) true [] []
  | AstMacroMatchLiteral =>
      Class "AstMacroMatchLiteral" (Bolt AstMacroMatch) true []
        [ Field "match" (T_node AstMacroLiteral) required_field ]
  | AstMacroMatchArgument =>
      Class "AstMacroMatchArgument" (Bolt AstMacroMatch) true []
        [ Field "match_identifier" (T_node AstMacroArgument) required_field;
          Field "match_argument_parser" (T_foreign AstResourceLocation) required_field;
          Field "match_argument_properties" (T_Optional (T_foreign AstJson))
            (default_value VNone) ]
  | AstInterpolation =>
      Class "AstInterpolation" (Host AstNode) true []
        [ Field "prefix" (T_Optional T_str) (default_value VNone);
          Field "unpack" (T_Optional T_str) (default_value VNone);
          Field "converter" T_str required_field;
          Field "value" (T_node AstExpression) required_field ]
  | AstImportedIdentifier =>
      Class "AstImportedIdentifier" (Host AstNode) true []
        [ Field "value" T_str required_field ]
  end.

(** The location a node has when none is given: one object of
    tokenstream, shared by all nodes. *)
Definition UNKNOWN_LOCATION : value := VRef SourceLocation 0.

(** Modelled from the spec: mecha's [AstNode], [AstRoot] and [AstLiteral]
    are not part of this repository.  The spec has every node carry the
    source span it inherits from the base: these are the first two fields
    of [AstNode], [location] and [end_location], which have a default and
    are kept out of comparison and hashing.  [AstRoot] adds the commands
    of the unit it contains and [AstLiteral] the literal token, [value];
    both are mandatory, like every attribute the spec does not list as
    optional. *)
Definition span_fields : list field_decl :=
  [ MkField "location" (T_foreign SourceLocation)
      (default_value UNKNOWN_LOCATION) false;
    MkField "end_location" (T_foreign SourceLocation)
      (default_value UNKNOWN_LOCATION) false ].

Definition host_fields (h : host_class) : list field_decl :=
  match h with
  | AstNode => span_fields
  | AstRoot =>
      span_fields ++
      [ Field "commands" (T_AstChildren (T_foreign AstCommand)) required_field ]
  | AstLiteral =>
      span_fields ++ [ Field "value" T_str required_field ]
  end.

(** ** What [dataclass] collects: the fields of a class *)

(** A field declared again keeps the position of the inherited one; a new
    field goes to the end. *)
Fixpoint set_field (f : field_decl) (fs : list field_decl) : list field_decl :=
  match fs with
  | [] => [f]
  | g :: rest =>
      if String.eqb (fname g) (fname f) then f :: rest
      else g :: set_field f rest
  end.

Definition inherit (inherited own : list field_decl) : list field_decl :=
  fold_left (fun acc f => set_field f acc) own inherited.

Fixpoint fields_upto (depth : nat) (c : class) : list field_decl :=
  match depth with
  | O => []
  | S d =>
      inherit
        match cbase (decl c) with
        | Host h => host_fields h
        | Bolt b => fields_upto d b
        end
        (cfields (decl c))
  end.

(** No chain of bases is longer than the number of classes. *)
Definition fields (c : class) : list field_decl := fields_upto 34 c.

Definition field_names (c : class) : list string := map fname (fields c).

(** [issubclass], along the chain of bases inside the module. *)
Fixpoint issubclass_upto (depth : nat) (c b : class) : bool :=
  class_eqb c b ||
  match depth with
  | O => false
  | S d =>
      match cbase (decl c) with
      | Host _ => false
      | Bolt p => issubclass_upto d p b
      end
  end.

Definition issubclass (c b : class) : bool := issubclass_upto 34 c b.

Definition isinstance (v : value) (b : class) : bool :=
  match v with
  | VNode c _ => issubclass c b
  | _ => false
  end.

(** Whether a value is one the annotation of a field admits. *)
Fixpoint conforms (a : annotation) (v : value) : bool :=
  match a with
  | T_str => match v with VStr _ => true | _ => false end
  | T_bool => match v with VBool _ => true | _ => false end
  | T_Any => true
  | T_node c => isinstance v c
  | T_foreign k => match v with VRef k' _ => foreign_eqb k' k | _ => false end
  | T_Optional a' => match v with VNone => true | _ => conforms a' v end
  | T_Union a1 a2 => conforms a1 v || conforms a2 v
  | T_AstChildren a' =>
      match v with
      | VTuple items => forallb (conforms a') items
      | _ => false
      end
  end.

(** ** Exceptions and results *)

Inductive exception : Type :=
| TypeError_positional (accepted given : nat)
| TypeError_unexpected_keyword (k : string)
| TypeError_multiple_values (k : string)
| ValueError (message : string)
| FrozenInstanceError (attr : string)
| AttributeError (attr : string).

Inductive result (A : Type) : Type :=
| Ok (a : A)
| Raise (e : exception).

Arguments Ok {A} a.
Arguments Raise {A} e.

Definition bind {A B : Type} (r : result A) (k : A -> result B) : result B :=
  match r with
  | Ok a => k a
  | Raise e => Raise e
  end.

Notation "x <- r ;; k" := (bind r (fun x => k))
  (at level 61, r at next level, right associativity).

(** ** The generated constructor *)

Definition kwargs : Type := list (string * value).

Fixpoint lookup (k : string) (kw : kwargs) : option value :=
  match kw with
  | [] => None
  | (k', v) :: rest => if String.eqb k' k then Some v else lookup k rest
  end.

Definition mem (k : string) (ks : list string) : bool :=
  existsb (String.eqb k) ks.

(** Binding of the keyword arguments: a keyword has to name a field, and
    one that no positional argument has filled. *)
Fixpoint check_keywords (positional named : list string) (kw : kwargs)
  : option exception :=
  match kw with
  | [] => None
  | (k, _) :: rest =>
      if mem k positional then Some (TypeError_multiple_values k)
      else if mem k named then check_keywords positional named rest
      else Some (TypeError_unexpected_keyword k)
  end.

(** [beet.core.utils.required_field] is not part of this repository.  The
    source calls it without an argument, [required_field()], so what it puts
    in a field knows neither the field nor the class: it is a default that
    raises [ValueError("Field required.")] when the constructor has to fall
    back on it.  The spec would have the error name the attribute and the
    node type; the call in the source gives it neither. *)
Definition required_field_unset : exception :=
  ValueError "Field required.".

(** The body of the generated [__init__]: the fields are set in order, each
    from its argument, or else from its default. *)
Fixpoint init_fields (fs : list field_decl)
    (args : list value) (kw : kwargs) : result (list value) :=
  match fs with
  | [] => Ok []
  | f :: fs' =>
      match args with
      | a :: args' =>
          rest <- init_fields fs' args' kw ;;
          Ok (a :: rest)
      | [] =>
          v <- match lookup (fname f) kw with
               | Some v => Ok v
               | None =>
                   match fdefault f with
                   | default_value d => Ok d
                   | required_field => Raise required_field_unset
                   end
               end ;;
          rest <- init_fields fs' [] kw ;;
          Ok (v :: rest)
      end
  end.

Definition construct (c : class) (args : list value) (kw : kwargs)
  : result value :=
  let fs := fields c in
  if (List.length fs <? List.length args)%nat
  then Raise (TypeError_positional (List.length fs) (List.length args))
  else
    let names := map fname fs in
    match check_keywords (firstn (List.length args) names)
                         (skipn (List.length args) names) kw with
    | Some e => Raise e
    | None =>
        attrs <- init_fields fs args kw ;;
        Ok (VNode c attrs)
    end.

(** ** Attribute access and assignment *)

Fixpoint index_of (k : string) (ks : list string) : option nat :=
  match ks with
  | [] => None
  | k' :: rest =>
      if String.eqb k' k then Some O
      else option_map S (index_of k rest)
  end.

Definition getattr (self : value) (name : string) : option value :=
  match self with
  | VNode c attrs =>
      match index_of name (field_names c) with
      | Some i => nth_error attrs i
      | None => None
      end
  | _ => None
  end.

Fixpoint replace_nth (i : nat) (v : value) (l : list value) : list value :=
  match l, i with
  | [], _ => []
  | _ :: rest, O => v :: rest
  | x :: rest, S j => x :: replace_nth j v rest
  end.

(** [setattr(self, name, v)]: the outcome and the object afterwards.  A
    class made with [frozen=True] gets a [__setattr__] that raises whenever
    [type(self)] is that class.  Without it the value would be stored; of
    that case the model keeps the assignment to a declared field. *)
Definition setattr (self : value) (name : string) (v : value)
  : result unit * value :=
  match self with
  | VNode c attrs =>
      if cfrozen (decl c)
      then (Raise (FrozenInstanceError name), self)
      else
        match index_of name (field_names c) with
        | Some i => (Ok tt, VNode c (replace_nth i v attrs))
        | None => (Raise (AttributeError name), self)
        end
  | _ => (Raise (AttributeError name), self)
  end.

(** [delattr(self, name)]: the generated [__delattr__] raises in the same
    way.  Nodes here always hold all their fields, so the deletion an
    unfrozen class would allow is not represented. *)
Definition delattr (self : value) (name : string) : result unit * value :=
  match self with
  | VNode c attrs =>
      if cfrozen (decl c)
      then (Raise (FrozenInstanceError name), self)
      else (Raise (AttributeError name), self)
  | _ => (Raise (AttributeError name), self)
  end.

(** ** Arguments of a call, by attribute *)

(** The value a call supplies for an attribute: the positional argument at
    the position of the field, or else the keyword argument of its name. *)
Definition argument (c : class) (args : list value) (kw : kwargs)
    (name : string) : option value :=
  match index_of name (field_names c) with
  | Some i =>
      match nth_error args i with
      | Some a => Some a
      | None => lookup name kw
      end
  | None => None
  end.

Definition supplied (c : class) (args : list value) (kw : kwargs)
    (name : string) : bool :=
  match argument c args kw name with
  | Some _ => true
  | None => false
  end.

(** The call binds: no [TypeError] from the arguments themselves. *)
Definition binds (c : class) (args : list value) (kw : kwargs) : bool :=
  (List.length args <=? List.length (fields c))%nat &&
  match check_keywords (firstn (List.length args) (field_names c))
                       (skipn (List.length args) (field_names c)) kw with
  | None => true
  | Some _ => false
  end.

(** What an attribute holds after a successful construction. *)
Definition resolved (c : class) (args : list value) (kw : kwargs)
    (f : field_decl) : value :=
  match argument c args kw (fname f) with
  | Some v => v
  | None =>
      match fdefault f with
      | default_value d => d
      | required_field => VNone
      end
  end.

(** An attribute may be omitted when some call that does not supply it
    constructs a node. *)
Definition may_omit (c : class) (name : string) : Prop :=
  exists args kw node,
    supplied c args kw name = false /\ construct c args kw = Ok node.

(** The attributes the spec lists as having an absent state. *)
Definition optional_in_spec : list (class * string) :=
  [ (AstSlice, "start"); (AstSlice, "stop"); (AstSlice, "step");
    (AstFunctionSignatureArgument, "default");
    (AstMacroMatchArgument, "match_argument_properties");
    (AstInterpolation, "prefix"); (AstInterpolation, "unpack") ].

(** The attributes the source gives a default other than [None]. *)
Definition defaulted_in_source : list (class * string) :=
  [ (AstTargetIdentifier, "rebind"); (AstFunctionSignature, "decorators") ].

Fixpoint class_attr_lookup (k : string) (l : list (string * class_attr))
  : option class_attr :=
  match l with
  | [] => None
  | (k', a) :: rest =>
      if String.eqb k' k then Some a else class_attr_lookup k rest
  end.

(** ** Equality and hashing *)

(** What the interpreter and the foreign classes provide: [__eq__] and
    [__hash__] of foreign objects (a hash of [None] stands for the
    [TypeError] of an unhashable object), the hash of a string, which the
    interpreter salts, the hash of [None] and the way a tuple combines the
    hashes of its items. *)
Record runtime : Type := Runtime {
  ref_eq : foreign -> nat -> foreign -> nat -> bool;
  ref_hash : foreign -> nat -> option Z;
  str_hash : string -> Z;
  none_hash : Z;
  tuple_hash : list Z -> Z
}.

(** The hash of an integer: reduction modulo the Mersenne prime
    [2^61 - 1], keeping the sign, and never [-1]. *)
Definition hash_modulus : Z := 2 ^ 61 - 1.

Definition int_hash (n : Z) : Z :=
  let h := (Z.sgn n * (Z.abs n mod hash_modulus))%Z in
  if (h =? -1)%Z then (-2)%Z else h.

Definition list_eqb {A B : Type} (eq : A -> B -> bool)
  : list A -> list B -> bool :=
  fix go (l1 : list A) (l2 : list B) : bool :=
    match l1, l2 with
    | [], [] => true
    | x :: l1', y :: l2' => eq x y && go l1' l2'
    | _, _ => false
    end.

Definition hash_all {A : Type} (h : A -> option Z) : list A -> option (list Z) :=
  fix go (l : list A) : option (list Z) :=
    match l with
    | [] => Some []
    | x :: l' =>
        match h x, go l' with
        | Some hx, Some hs => Some (hx :: hs)
        | _, _ => None
        end
    end.

(** Comparison and hashing of the tuples of fields: a field declared with
    [compare=False] is left out.  [flags] are the [fcompare] of the fields,
    in order. *)
Definition compared_eqb {A B : Type} (eq : A -> B -> bool)
  : list bool -> list A -> list B -> bool :=
  fix go (flags : list bool) (l1 : list A) (l2 : list B) : bool :=
    match l1, l2 with
    | [], [] => true
    | x :: l1', y :: l2' =>
        (if hd true flags then eq x y else true) && go (tl flags) l1' l2'
    | _, _ => false
    end.

Definition compared_hashes {A : Type} (h : A -> option Z)
  : list bool -> list A -> option (list Z) :=
  fix go (flags : list bool) (l : list A) : option (list Z) :=
    match l with
    | [] => Some []
    | x :: l' =>
        if hd true flags
        then match h x, go (tl flags) l' with
             | Some hx, Some hs => Some (hx :: hs)
             | _, _ => None
             end
        else go (tl flags) l'
    end.

Definition compare_flags (c : class) : list bool := map fcompare (fields c).

(** The attribute values of a node that are compared and hashed. *)
Fixpoint select {A : Type} (flags : list bool) (l : list A) : list A :=
  match l with
  | [] => []
  | x :: l' =>
      if hd true flags then x :: select (tl flags) l'
      else select (tl flags) l'
  end.

Definition compared (c : class) (attrs : list value) : list value :=
  select (compare_flags c) attrs.

Definition identical (k1 : foreign) (a1 : nat) (k2 : foreign) (a2 : nat) : bool :=
  foreign_eqb k1 k2 && Nat.eqb a1 a2.

Section Runtime.

Variable rt : runtime.

(** Comparison of two items of a tuple, and so of two attribute values:
    identity, or else [==].  The [__eq__] a dataclass generates compares
    the classes, then the tuples of the compared fields.  Only for a
    foreign object can identity and [==] differ. *)
Fixpoint rich_eq (a b : value) {struct a} : bool :=
  match a, b with
  | VNone, VNone => true
  | VBool x, VBool y => Bool.eqb x y
  | VBool x, VInt n => Z.eqb (Z.b2z x) n
  | VInt n, VBool x => Z.eqb n (Z.b2z x)
  | VInt m, VInt n => Z.eqb m n
  | VStr s, VStr t => String.eqb s t
  | VTuple l1, VTuple l2 => list_eqb rich_eq l1 l2
  | VList l1, VList l2 => list_eqb rich_eq l1 l2
  | VNode c1 attrs1, VNode c2 attrs2 =>
      class_eqb c1 c2 &&
      compared_eqb rich_eq (compare_flags c1) attrs1 attrs2
  | VRef k1 a1, VRef k2 a2 =>
      identical k1 a1 k2 a2 || ref_eq rt k1 a1 k2 a2
  | _, _ => false
  end.

(** [hash]: [None] for the [TypeError] of an unhashable value.  The
    [__hash__] a frozen dataclass generates hashes the tuple of the
    compared fields. *)
Fixpoint py_hash (v : value) : option Z :=
  match v with
  | VNone => Some (none_hash rt)
  | VBool b => Some (Z.b2z b)
  | VInt n => Some (int_hash n)
  | VStr s => Some (str_hash rt s)
  | VTuple items => option_map (tuple_hash rt) (hash_all py_hash items)
  | VList _ => None
  | VNode c attrs =>
      option_map (tuple_hash rt)
        (compared_hashes py_hash (compare_flags c) attrs)
  | VRef k a => ref_hash rt k a
  end.

End Runtime.

(** Foreign classes honour the contract of [__hash__]: objects that compare
    equal hash alike. *)
Definition hash_contract (rt : runtime) : Prop :=
  forall k1 a1 k2 a2,
    ref_eq rt k1 a1 k2 a2 = true -> ref_hash rt k1 a1 = ref_hash rt k2 a2.

(** A runtime in which foreign objects keep the comparison and the hash of
    [object], identity and the address; its hashes of strings and tuples
    are stand-ins, no property depends on them. *)
Definition object_runtime : runtime :=
  {| ref_eq := identical;
     ref_hash := fun _ a => Some (Z.of_nat a);
     str_hash := fun s => Z.of_nat (String.length s);
     none_hash := 0%Z;
     tuple_hash := fun hs => fold_left (fun acc h => (31 * acc + h)%Z) hs 1%Z |}.

(** ** Notions the properties are stated with *)

(** No name occurs twice. *)
Fixpoint distinct (ks : list string) : bool :=
  match ks with
  | [] => true
  | k :: rest => negb (mem k rest) && distinct rest
  end.

(** The value a field receives: its argument, or else its default. *)
Definition value_for (f : field_decl) (a : option value) (kw : kwargs) : value :=
  match a with
  | Some v => v
  | None =>
      match lookup (fname f) kw with
      | Some v => v
      | None =>
          match fdefault f with
          | default_value d => d
          | required_field => VNone
          end
      end
  end.

(** A call with keywords only, one for every field but [name]. *)
Definition call_without (c : class) (name : string) : kwargs :=
  map (fun g => (fname g, VNone))
      (filter (fun g => negb (String.eqb (fname g) name)) (fields c)).

(** The concrete classes of the target family. *)
Definition target_variants : list class :=
  [AstTargetIdentifier; AstTargetUnpack; AstTargetAttribute; AstTargetItem].

(** The attributes of a node, as the data model of the spec has them: the
    fields that take part in comparison, which are all but the source
    span. *)
Definition attributes (c : class) : list field_decl :=
  filter fcompare (fields c).

Definition attribute_names (c : class) : list string :=
  map fname (attributes c).

(** C1, as the spec states it: from the error of a construction that leaves
    one required attribute unset, the name of the attribute and the node
    type can be told. *)
Definition required_error_identifies : Prop :=
  exists tell : exception -> string * string,
    forall c args kw f,
      binds c args kw = true ->
      In f (fields c) -> fdefault f = required_field ->
      supplied c args kw (fname f) = false ->
      (forall g, In g (fields c) -> fdefault g = required_field ->
                 fname g <> fname f -> supplied c args kw (fname g) = true) ->
      exists e, construct c args kw = Raise e /\
                tell e = (cname (decl c), fname f).

(** C2, as the spec states it: the seven attributes it lists are the only
    ones a construction may leave out. *)
Definition only_listed_may_be_omitted : Prop :=
  forall c name, In name (attribute_names c) ->
    may_omit c name -> In (c, name) optional_in_spec.

(** C7, as the spec states it: no [AstMacroArgument] holds a string that the
    identifier pattern does not match. *)
Definition macro_argument_rejects_non_identifiers : Prop :=
  forall s, IDENTIFIER_PATTERN s = false ->
    forall args kw attrs,
      construct AstMacroArgument args kw = Ok (VNode AstMacroArgument attrs) ->
      getattr (VNode AstMacroArgument attrs) "value" <> Some (VStr s).

(** Induction over values, through the lists of items and attributes. *)
Section ValueInduction.

Variable P : value -> Prop.
Hypothesis P_None : P VNone.
Hypothesis P_Bool : forall b, P (VBool b).
Hypothesis P_Int : forall n, P (VInt n).
Hypothesis P_Str : forall s, P (VStr s).
Hypothesis P_Tuple : forall items, Forall P items -> P (VTuple items).
Hypothesis P_List : forall items, Forall P items -> P (VList items).
Hypothesis P_Node : forall c attrs, Forall P attrs -> P (VNode c attrs).
Hypothesis P_Ref : forall k addr, P (VRef k addr).

Fixpoint value_rect_items (v : value) : P v :=
  let all :=
    fix all (l : list value) : Forall P l :=
      match l with
      | [] => Forall_nil P
      | x :: l' => Forall_cons x (value_rect_items x) (all l')
      end in
  match v with
  | VNone => P_None
  | VBool b => P_Bool b
  | VInt n => P_Int n
  | VStr s => P_Str s
  | VTuple items => P_Tuple items (all items)
  | VList items => P_List items (all items)
  | VNode c attrs => P_Node c attrs (all attrs)
  | VRef k addr => P_Ref k addr
  end.

End ValueInduction.

(** Two attribute values, as [getattr] returns them, compare equal. *)
Definition attribute_equal (rt : runtime) (x y : option value) : Prop :=
  match x, y with
  | Some u, Some v => rich_eq rt u v = true
  | _, _ => False
  end.

(** Two sequences are equal item by item, position by position. *)
Definition same_sequence (rt : runtime) (l1 l2 : list value) : Prop :=
  Forall2 (fun x y => rich_eq rt x y = true) l1 l2.

(** The hash of [a] is that of every value [a] compares equal to. *)
Definition hash_agrees (rt : runtime) (a : value) : Prop :=
  forall b, rich_eq rt a b = true -> py_hash rt a = py_hash rt b.





(** ** The module as a whole *)

(** The names the module exports. *)
Definition __all__ : list string :=
  [ "AstModuleRoot";
    "AstExpression";
    "AstExpressionBinary";
    "AstExpressionUnary";
    "AstValue";
    "AstIdentifier";
    "AstFormatString";
    "AstTuple";
    "AstList";
    "AstDictItem";
    "AstDict";
    "AstSlice";
    "AstUnpack";
    "AstKeyword";
    "AstAttribute";
    "AstLookup";
    "AstCall";
    "AstTarget";
    "AstTargetIdentifier";
    "AstTargetUnpack";
    "AstTargetAttribute";
    "AstTargetItem";
    "AstAssignment";
    "AstDecorator";
    "AstFunctionSignature";
    "AstFunctionSignatureArgument";
    "AstDeferredRoot";
    "AstMacroLiteral";
    "AstMacroArgument";
    "AstMacroMatch";
    "AstMacroMatchLiteral";
    "AstMacroMatchArgument";
    "AstInterpolation";
    "AstImportedIdentifier" ].

(** The classes, in the order of their class statements. *)
Definition classes : list class :=
  [ AstModuleRoot; AstExpression; AstExpressionBinary; AstExpressionUnary;
    AstValue; AstIdentifier; AstFormatString; AstTuple; AstList; AstDictItem;
    AstDict; AstSlice; AstUnpack; AstKeyword; AstAttribute; AstLookup;
    AstCall; AstTarget; AstTargetIdentifier; AstTargetUnpack;
    AstTargetAttribute; AstTargetItem; AstAssignment; AstDecorator;
    AstFunctionSignatureArgument; AstFunctionSignature; AstDeferredRoot;
    AstMacroLiteral; AstMacroArgument; AstMacroMatch; AstMacroMatchLiteral;
    AstMacroMatchArgument; AstInterpolation; AstImportedIdentifier ].

(** The names bound by the class statements. *)
Definition defined_names : list string :=
  map (fun c => cname (decl c)) classes.

(** The mecha class a chain of bases ends in. *)
Fixpoint host_base_upto (depth : nat) (c : class) : host_class :=
  match cbase (decl c) with
  | Host h => h
  | Bolt b =>
      match depth with
      | O => AstNode
      | S d => host_base_upto d b
      end
  end.

Definition host_base (c : class) : host_class := host_base_upto 34 c.

(** The subclasses of the three bases that declare no field. *)
Definition expression_family : list class :=
  [ AstExpression; AstExpressionBinary; AstExpressionUnary; AstValue;
    AstIdentifier; AstFormatString; AstTuple; AstList; AstDict; AstAttribute;
    AstLookup; AstCall ].

Definition target_family : list class :=
  AstTarget :: target_variants.

Definition macro_match_family : list class :=
  [ AstMacroMatch; AstMacroMatchLiteral; AstMacroMatchArgument ].

(** The [TypeError]s of a call whose arguments do not bind. *)
Definition is_TypeError (e : exception) : bool :=
  match e with
  | TypeError_positional _ _
  | TypeError_unexpected_keyword _
  | TypeError_multiple_values _ => true
  | _ => false
  end.

(** ** Calls *)

(** What a call supplies at a position: the positional argument there, or
    else the keyword argument of the field's name. *)
Definition supplied_at_position (args : list value) (kw : kwargs)
    (i : nat) (f : field_decl) : option value :=
  match nth_error args i with
  | Some a => Some a
  | None => lookup (fname f) kw
  end.

(** The positional arguments of a call, as keyword arguments: each under
    the name of the field at its position. *)
Definition as_keywords (c : class) (args : list value) : kwargs :=
  combine (field_names c) args.

(** Pairs of classes whose class statements declare the same fields: the
    expression shape and the target shape that mirrors it. *)
Definition mirrored : list (class * class) :=
  [ (AstAttribute, AstTargetAttribute); (AstLookup, AstTargetItem) ].

(** Every value a call supplies is one the annotation of its field admits. *)
Definition well_typed_call (c : class) (args : list value) (kw : kwargs) : Prop :=
  forall f v, In f (fields c) -> argument c args kw (fname f) = Some v ->
              conforms (fannot f) v = true.

(** Every attribute of a node is a value the annotation of its field admits. *)
Definition well_typed_node (c : class) (node : value) : Prop :=
  forall f v, In f (fields c) -> getattr node (fname f) = Some v ->
              conforms (fannot f) v = true.

(** Comparison of two foreign objects as items: identity, or else [==]. *)
Definition ref_same (rt : runtime) (k1 : foreign) (a1 : nat)
    (k2 : foreign) (a2 : nat) : bool :=
  identical k1 a1 k2 a2 || ref_eq rt k1 a1 k2 a2.

(** The foreign classes compare symmetrically and transitively. *)
Definition foreign_equivalence (rt : runtime) : Prop :=
  (forall k1 a1 k2 a2, ref_eq rt k1 a1 k2 a2 = ref_eq rt k2 a2 k1 a1) /\
  (forall k1 a1 k2 a2 k3 a3,
     ref_same rt k1 a1 k2 a2 = true -> ref_same rt k2 a2 k3 a3 = true ->
     ref_same rt k1 a1 k3 a3 = true).

(** The annotation a class gives to the items of a sequence attribute. *)
Definition item_annotation (c : class) (name : string) : option annotation :=
  match find (fun f => String.eqb (fname f) name) (fields c) with
  | Some f =>
      match fannot f with
      | T_AstChildren a => Some a
      | _ => None
      end
  | None => None
  end.

(** * Properties *)

(** ** The class table *)

Example fields_AstFunctionSignature :
  field_names AstFunctionSignature =
    ["location"; "end_location"; "decorators"; "name"; "arguments"] /\
  attribute_names AstFunctionSignature = ["decorators"; "name"; "arguments"].
Proof. split; reflexivity. Qed.

Example fields_AstMacroArgument :
  field_names AstMacroArgument = ["location"; "end_location"; "value"].
Proof. reflexivity. Qed.

(** The depth bound of [fields] and [issubclass] is never reached: three
    levels of bases are all the module has. *)
Lemma fields_depth (c : class) (k : nat) :
  fields_upto (3 + k) c = fields_upto 3 c.
Proof. destruct c; reflexivity. Qed.

Lemma issubclass_depth (c b : class) (k : nat) :
  issubclass_upto (3 + k) c b = issubclass_upto 3 c b.
Proof. destruct c; reflexivity. Qed.

Lemma mem_In (k : string) (ks : list string) : mem k ks = true <-> In k ks.
Proof.
  unfold mem. rewrite existsb_exists. split.
  - intros [x [Hin Heq]]. apply String.eqb_eq in Heq. now subst.
  - intros Hin. exists k. split; [assumption | apply String.eqb_refl].
Qed.

Lemma distinct_NoDup (ks : list string) : distinct ks = true -> NoDup ks.
Proof.
  induction ks as [| k rest IH]; simpl; intros H.
  - constructor.
  - apply andb_prop in H as [Hk Hrest]. constructor.
    + intros Hin. apply mem_In in Hin. rewrite Hin in Hk. discriminate.
    + auto.
Qed.

Lemma field_names_NoDup (c : class) : NoDup (field_names c).
Proof. apply distinct_NoDup. destruct c; reflexivity. Qed.

(** ** Names and positions *)

Lemma index_of_nth (ks : list string) (k : string) (i : nat) :
  index_of k ks = Some i -> nth_error ks i = Some k.
Proof.
  revert i. induction ks as [| k' rest IH]; simpl; intros i H.
  - discriminate.
  - destruct (String.eqb k' k) eqn:E.
    + apply String.eqb_eq in E. injection H as <-. now subst.
    + destruct (index_of k rest) as [j |]; simpl in H; [| discriminate].
      injection H as <-. simpl. now apply IH.
Qed.

Lemma nth_index_of (ks : list string) (k : string) (i : nat) :
  NoDup ks -> nth_error ks i = Some k -> index_of k ks = Some i.
Proof.
  intros Hnd. revert i. induction Hnd as [| k' rest Hnotin Hnd IH]; intros i H.
  - destruct i; discriminate.
  - destruct i as [| j]; simpl in *.
    + injection H as ->. now rewrite String.eqb_refl.
    + destruct (String.eqb k' k) eqn:E.
      * apply String.eqb_eq in E. subst k'.
        exfalso. apply Hnotin. eapply nth_error_In; eassumption.
      * rewrite (IH j H). reflexivity.
Qed.

Lemma index_of_In (ks : list string) (k : string) :
  In k ks -> exists i, index_of k ks = Some i.
Proof.
  induction ks as [| k' rest IH]; simpl; intros H.
  - contradiction.
  - destruct (String.eqb k' k) eqn:E.
    + now exists 0.
    + destruct H as [-> | H]; [rewrite String.eqb_refl in E; discriminate |].
      destruct (IH H) as [j Hj]. exists (S j). now rewrite Hj.
Qed.

Lemma field_position (c : class) (f : field_decl) :
  In f (fields c) ->
  exists i, nth_error (fields c) i = Some f /\
            index_of (fname f) (field_names c) = Some i.
Proof.
  intros Hin. apply In_nth_error in Hin as [i Hi]. exists i. split; [exact Hi |].
  apply nth_index_of; [apply field_names_NoDup |].
  unfold field_names. rewrite nth_error_map, Hi. reflexivity.
Qed.

Lemma field_at (c : class) (f g : field_decl) (i : nat) :
  nth_error (fields c) i = Some f ->
  index_of (fname g) (field_names c) = Some i ->
  fname g = fname f.
Proof.
  intros Hf Hg. apply index_of_nth in Hg.
  unfold field_names in Hg. rewrite nth_error_map, Hf in Hg.
  simpl in Hg. now injection Hg.
Qed.

(** ** The body of the constructor *)

Lemma nth_error_nil_value (i : nat) : nth_error (@nil value) i = None.
Proof. now destruct i. Qed.

Lemma init_fields_ok (kw : kwargs) (fs : list field_decl) :
  forall args,
    (forall i f, nth_error fs i = Some f -> fdefault f = required_field ->
                 nth_error args i = None -> lookup (fname f) kw <> None) ->
    exists attrs,
      init_fields fs args kw = Ok attrs /\
      List.length attrs = List.length fs /\
      forall i f, nth_error fs i = Some f ->
                  nth_error attrs i = Some (value_for f (nth_error args i) kw).
Proof.
  induction fs as [| f fs IH]; intros args Hreq.
  - exists []. repeat split. intros [| i] g H; discriminate.
  - destruct args as [| a args].
    + destruct (IH [] ) as [rest [Hrest [Hlen Hval]]].
      { intros i g Hg Hr _. apply (Hreq (S i) g Hg Hr). reflexivity. }
      simpl. rewrite Hrest.
      assert (Hv : exists v,
        match lookup (fname f) kw with
        | Some v => Ok v
        | None => match fdefault f with
                  | required_field => Raise required_field_unset
                  | default_value d => Ok d
                  end
        end = Ok v /\ v = value_for f None kw).
      { unfold value_for. destruct (lookup (fname f) kw) as [v |] eqn:El.
        - now exists v.
        - destruct (fdefault f) as [| d] eqn:Ed.
          + exfalso. apply (Hreq 0 f eq_refl Ed eq_refl). exact El.
          + now exists d. }
      destruct Hv as [v [-> ->]]. simpl.
      eexists. split; [reflexivity |]. split; [simpl; now rewrite Hlen |].
      intros [| i] g Hg; simpl in *.
      * now injection Hg as <-.
      * rewrite (Hval i g Hg). now rewrite nth_error_nil_value.
    + destruct (IH args) as [rest [Hrest [Hlen Hval]]].
      { intros i g Hg Hr Ha. apply (Hreq (S i) g Hg Hr Ha). }
      simpl. rewrite Hrest. simpl.
      eexists. split; [reflexivity |]. split; [simpl; now rewrite Hlen |].
      intros [| i] g Hg; simpl in *.
      * now injection Hg as <-.
      * apply (Hval i g Hg).
Qed.

(** A required field that the call leaves unset makes the body raise, and
    what it raises is the one error of [required_field]. *)
Lemma init_fields_missing (kw : kwargs) (fs : list field_decl) :
  forall args i f,
    nth_error fs i = Some f -> fdefault f = required_field ->
    nth_error args i = None -> lookup (fname f) kw = None ->
    init_fields fs args kw = Raise required_field_unset.
Proof.
  induction fs as [| g fs IH]; intros args i f Hf Hr Ha Hl.
  - destruct i; discriminate.
  - destruct i as [| i]; simpl in Hf.
    + injection Hf as ->. destruct args as [| a args]; [| discriminate].
      simpl. now rewrite Hl, Hr.
    + destruct args as [| a args]; simpl.
      * rewrite (IH [] i f Hf Hr (nth_error_nil_value i) Hl).
        destruct (lookup (fname g) kw); [reflexivity |].
        destruct (fdefault g); reflexivity.
      * simpl in Ha. now rewrite (IH args i f Hf Hr Ha Hl).
Qed.

Lemma init_fields_supplied (kw : kwargs) (fs : list field_decl) :
  forall args attrs i f,
    init_fields fs args kw = Ok attrs ->
    nth_error fs i = Some f -> fdefault f = required_field ->
    nth_error args i <> None \/ lookup (fname f) kw <> None.
Proof.
  induction fs as [| g fs IH]; intros args attrs i f Hinit Hf Hr.
  - destruct i; discriminate.
  - destruct args as [| a args]; simpl in Hinit.
    + destruct i as [| i]; simpl in Hf.
      * injection Hf as ->. right. intros El. rewrite El, Hr in Hinit.
        discriminate.
      * destruct (match lookup (fname g) kw with
                  | Some v => Ok v
                  | None => match fdefault g with
                            | required_field =>
                                Raise required_field_unset
                            | default_value d => Ok d
                            end
                  end); simpl in Hinit; [| discriminate].
        destruct (init_fields fs [] kw) as [rest |] eqn:Er;
          simpl in Hinit; [| discriminate].
        destruct (IH [] rest i f Er Hf Hr) as [H | H]; [| now right].
        exfalso. apply H. apply nth_error_nil_value.
    + destruct (init_fields fs args kw) as [rest |] eqn:Er;
        simpl in Hinit; [| discriminate].
      destruct i as [| i]; simpl in Hf.
      * left. discriminate.
      * simpl. apply (IH args rest i f Er Hf Hr).
Qed.

(** ** Construction *)

(** Case analysis on the fields of a given class. *)
Ltac each_field H :=
  cbv in H;
  repeat (destruct H as [H | H]; [subst |]);
  try contradiction.

Lemma binds_construct (c : class) (args : list value) (kw : kwargs) :
  binds c args kw = true ->
  construct c args kw =
    (attrs <- init_fields (fields c) args kw ;;
     Ok (VNode c attrs)).
Proof.
  unfold binds, construct, field_names. intros H.
  apply andb_prop in H as [Hlen Hkw].
  apply Nat.leb_le in Hlen.
  replace (List.length (fields c) <? List.length args)%nat with false
    by (symmetry; apply Nat.ltb_ge; exact Hlen).
  destruct (check_keywords _ _ kw); [discriminate | reflexivity].
Qed.

Lemma construct_binds (c : class) (args : list value) (kw : kwargs) (node : value) :
  construct c args kw = Ok node -> binds c args kw = true.
Proof.
  unfold binds, construct, field_names.
  destruct (List.length (fields c) <? List.length args)%nat eqn:Elen;
    [discriminate |].
  apply Nat.ltb_ge in Elen. apply Nat.leb_le in Elen. rewrite Elen.
  destruct (check_keywords _ _ kw); [discriminate | reflexivity].
Qed.

Lemma supplied_at (c : class) (args : list value) (kw : kwargs)
    (f : field_decl) (i : nat) :
  index_of (fname f) (field_names c) = Some i ->
  supplied c args kw (fname f) = false <->
  nth_error args i = None /\ lookup (fname f) kw = None.
Proof.
  intros Hi. unfold supplied, argument. rewrite Hi.
  destruct (nth_error args i); [split; [discriminate | intros [H _]; discriminate] |].
  destruct (lookup (fname f) kw);
    [split; [discriminate | intros [_ H]; discriminate] | tauto].
Qed.

Lemma resolved_at (c : class) (args : list value) (kw : kwargs)
    (f : field_decl) (i : nat) :
  index_of (fname f) (field_names c) = Some i ->
  resolved c args kw f = value_for f (nth_error args i) kw.
Proof.
  intros Hi. unfold resolved, argument, value_for. rewrite Hi.
  destruct (nth_error args i); [reflexivity |].
  destruct (lookup (fname f) kw); reflexivity.
Qed.

Lemma fields_split (c : class) :
  fields c = (host_fields (host_base c) ++ cfields (decl c))%list.
Proof. destruct c; reflexivity. Qed.

Lemma declared_fields (c : class) (f : field_decl) :
  In f (cfields (decl c)) -> In f (fields c).
Proof. intros H. rewrite fields_split. apply in_or_app. now right. Qed.

Lemma unset_required_raises (c : class) (args : list value) (kw : kwargs)
    (f : field_decl) :
  binds c args kw = true ->
  In f (fields c) ->
  fdefault f = required_field ->
  supplied c args kw (fname f) = false ->
  construct c args kw = Raise required_field_unset.
Proof.
  intros Hbinds Hin Hreq Hunset.
  rewrite (binds_construct _ _ _ Hbinds).
  destruct (field_position c f Hin) as [i [Hi Hidx]].
  destruct (proj1 (supplied_at c args kw f i Hidx) Hunset) as [Ha Hl].
  now rewrite (init_fields_missing kw (fields c) args i f Hi Hreq Ha Hl).
Qed.

(** [Identifier()] and [Decorator()] fail with one and the same error,
    though they leave unset two attributes of two classes: the error tells
    neither. *)
Lemma required_error_names_nothing :
  construct AstIdentifier [] [] = Raise (ValueError "Field required.") /\
  construct AstDecorator [] [] = Raise (ValueError "Field required.") /\
  ~ required_error_identifies.
Proof.
  split; [reflexivity |]. split; [reflexivity |].
  intros [tell H].
  assert (H1 : exists e, construct AstIdentifier [] [] = Raise e /\
                         tell e = ("AstIdentifier", "value")).
  { apply (H AstIdentifier [] [] (Field "value" T_str required_field));
      try reflexivity.
    - simpl. auto.
    - intros g Hin Hreq Hne. each_field Hin; discriminate. }
  assert (H2 : exists e, construct AstDecorator [] [] = Raise e /\
                         tell e = ("AstDecorator", "expression")).
  { apply (H AstDecorator [] []
             (Field "expression" (T_node AstExpression) required_field));
      try reflexivity.
    - simpl. auto.
    - intros g Hin Hreq Hne. each_field Hin; discriminate. }
  destruct H1 as [e1 [E1 T1]]. destruct H2 as [e2 [E2 T2]].
  vm_compute in E1, E2. injection E1 as <-. injection E2 as <-.
  rewrite T1 in T2. discriminate.
Qed.

(** C1, amended.  For every class of the module and every attribute
    declared with [required_field()]: a call that binds and leaves that
    attribute unset does not construct a node; it raises
    [ValueError("Field required.")].  The error is the same whatever the
    attribute and whatever the class: it names neither. *)
Theorem required_attribute_unset_fails
    (c : class) (args : list value) (kw : kwargs) (f : field_decl) :
  binds c args kw = true ->
  In f (fields c) ->
  fdefault f = required_field ->
  supplied c args kw (fname f) = false ->
  construct c args kw = Raise (ValueError "Field required.") /\
  (forall c' args' kw' f',
     binds c' args' kw' = true -> In f' (fields c') ->
     fdefault f' = required_field ->
     supplied c' args' kw' (fname f') = false ->
     construct c' args' kw' = construct c args kw).
Proof.
  intros Hbinds Hin Hreq Hunset.
  pose proof (unset_required_raises c args kw f Hbinds Hin Hreq Hunset) as H.
  split; [exact H |].
  intros c' args' kw' f' Hbinds' Hin' Hreq' Hunset'.
  rewrite H. now apply (unset_required_raises c' args' kw' f').
Qed.

(** The scenario of the spec: [Identifier()] fails, for [value] is unset. *)
Lemma required_attribute_unset_fails_witness :
  In (Field "value" T_str required_field) (cfields (decl AstIdentifier)) /\
  construct AstIdentifier [] [] = Raise (ValueError "Field required.").
Proof.
  split; [simpl; auto |].
  apply (required_attribute_unset_fails AstIdentifier [] []
           (Field "value" T_str required_field)).
  - reflexivity.
  - apply declared_fields. simpl. auto.
  - reflexivity.
  - reflexivity.
Defined.

Lemma construct_succeeds (c : class) (args : list value) (kw : kwargs) :
  binds c args kw = true ->
  (forall f, In f (fields c) -> fdefault f = required_field ->
             supplied c args kw (fname f) = true) ->
  exists attrs, construct c args kw = Ok (VNode c attrs).
Proof.
  intros Hbinds Hsupplied.
  rewrite (binds_construct _ _ _ Hbinds).
  destruct (init_fields_ok kw (fields c) args)
    as [attrs [Hinit _]].
  { intros i f Hi Hreq Ha Hl.
    assert (Hin : In f (fields c)) by (eapply nth_error_In; eassumption).
    assert (Hidx : index_of (fname f) (field_names c) = Some i).
    { apply nth_index_of; [apply field_names_NoDup |].
      unfold field_names. rewrite nth_error_map, Hi. reflexivity. }
    specialize (Hsupplied f Hin Hreq).
    assert (Hfalse : supplied c args kw (fname f) = false)
      by (apply (supplied_at c args kw f i Hidx); now split).
    rewrite Hfalse in Hsupplied. discriminate. }
  exists attrs. now rewrite Hinit.
Qed.

(** A constructed node holds, for each attribute, what the call resolved
    it to. *)
Lemma construct_resolves (c : class) (args : list value) (kw : kwargs)
    (node : value) :
  construct c args kw = Ok node ->
  forall f, In f (fields c) -> getattr node (fname f) = Some (resolved c args kw f).
Proof.
  intros H f Hin.
  pose proof (construct_binds _ _ _ _ H) as Hbinds.
  rewrite (binds_construct _ _ _ Hbinds) in H.
  destruct (init_fields (fields c) args kw) as [attrs |] eqn:E;
    [| discriminate].
  injection H as <-.
  destruct (init_fields_ok kw (fields c) args)
    as [attrs' [Hinit [_ Hval]]].
  { intros i g Hi Hreq Ha.
    destruct (init_fields_supplied _ _ _ _ _ _ E Hi Hreq) as [Hs | Hs];
      [contradiction | exact Hs]. }
  rewrite E in Hinit. injection Hinit as <-.
  destruct (field_position c f Hin) as [i [Hi Hidx]].
  simpl. rewrite Hidx, (Hval i f Hi). f_equal. symmetry.
  now apply resolved_at.
Qed.

Lemma optional_default_none (c : class) (f : field_decl) :
  In f (fields c) -> In (c, fname f) optional_in_spec ->
  fdefault f = default_value VNone.
Proof.
  intros Hin Hopt. destruct c; each_field Hin; simpl in Hopt;
    try reflexivity;
    repeat (destruct Hopt as [Hopt | Hopt]; [discriminate |]);
    contradiction.
Qed.

(** C8.  For every class of the module: a call that binds and supplies
    every required attribute constructs a node of that class; each attribute
    of the node is the value the call supplied for it, as it was supplied,
    or else the declared default of the attribute; and an attribute the spec
    lists as optional, left out of the call, is [None].  The attributes are
    those the class statement declares, and those it inherits. *)
Theorem construct_with_required_supplied
    (c : class) (args : list value) (kw : kwargs) :
  binds c args kw = true ->
  (forall f, In f (fields c) -> fdefault f = required_field ->
             supplied c args kw (fname f) = true) ->
  exists attrs,
    construct c args kw = Ok (VNode c attrs) /\
    (forall f, In f (fields c) ->
       getattr (VNode c attrs) (fname f) = Some (resolved c args kw f)) /\
    (forall f v, In f (fields c) -> argument c args kw (fname f) = Some v ->
       getattr (VNode c attrs) (fname f) = Some v) /\
    (forall f, In f (fields c) -> In (c, fname f) optional_in_spec ->
       supplied c args kw (fname f) = false ->
       getattr (VNode c attrs) (fname f) = Some VNone) /\
    (forall f, In f (cfields (decl c)) -> In f (fields c)).
Proof.
  intros Hbinds Hsupplied.
  destruct (construct_succeeds c args kw Hbinds Hsupplied) as [attrs Hc].
  exists attrs. split; [exact Hc |].
  pose proof (construct_resolves c args kw _ Hc) as Hres.
  split; [exact Hres |]. split; [| split; [| apply declared_fields]].
  - intros f v Hin Harg. rewrite (Hres f Hin). unfold resolved.
    now rewrite Harg.
  - intros f Hin Hopt Hunset. rewrite (Hres f Hin). unfold resolved.
    unfold supplied in Hunset.
    destruct (argument c args kw (fname f)); [discriminate |].
    now rewrite (optional_default_none c f Hin Hopt).
Qed.

(** The scenarios of the spec: [Slice()] is a node whose [start], [stop]
    and [step] are absent; an assignment holds the operator, the target and
    the value it was given. *)
Lemma construct_with_required_supplied_witness :
  (exists node,
     construct AstSlice [] [] = Ok node /\
     getattr node "start" = Some VNone /\
     getattr node "stop" = Some VNone /\
     getattr node "step" = Some VNone) /\
  (forall target value,
   exists node,
     construct AstAssignment []
       [("operator", VStr "="); ("target", target); ("value", value)]
       = Ok node /\
     getattr node "operator" = Some (VStr "=") /\
     getattr node "target" = Some target /\
     getattr node "value" = Some value).
Proof.
  pose (optional := T_Optional (T_node AstExpression)).
  split.
  - destruct (construct_with_required_supplied AstSlice [] [])
      as [attrs [H1 [_ [_ [H2 H3]]]]].
    + reflexivity.
    + intros f Hin Hreq. each_field Hin; discriminate.
    + exists (VNode AstSlice attrs). split; [exact H1 |].
      split; [| split].
      * apply (H2 (Field "start" optional (default_value VNone)));
          [apply H3 | |]; simpl; auto.
      * apply (H2 (Field "stop" optional (default_value VNone)));
          [apply H3 | |]; simpl; auto.
      * apply (H2 (Field "step" optional (default_value VNone)));
          [apply H3 | |]; simpl; auto 6.
  - intros target value.
    destruct (construct_with_required_supplied AstAssignment []
                [("operator", VStr "="); ("target", target); ("value", value)])
      as [attrs [H1 [_ [H2 [_ H3]]]]].
    + reflexivity.
    + intros f Hin Hreq. each_field Hin; try discriminate; reflexivity.
    + exists (VNode AstAssignment attrs). split; [exact H1 |].
      split; [| split].
      * apply (H2 (Field "operator" T_str required_field));
          [apply H3; simpl; auto | reflexivity].
      * apply (H2 (Field "target" (T_node AstTarget) required_field));
          [apply H3; simpl; auto | reflexivity].
      * apply (H2 (Field "value" (T_node AstExpression) required_field));
          [apply H3; simpl; auto | reflexivity].
Defined.

(** ** Which attributes may be omitted *)

Lemma attributes_are_fields (c : class) (f : field_decl) :
  In f (attributes c) -> In f (fields c).
Proof. unfold attributes. intros H. now apply filter_In in H. Qed.

Lemma listed_iff_default (c : class) (f : field_decl) :
  In f (attributes c) ->
  (In (c, fname f) (optional_in_spec ++ defaulted_in_source) <->
   fdefault f <> required_field).
Proof.
  intros Hin. destruct c; each_field Hin; simpl;
    (split;
     [ intros H; repeat (destruct H as [H | H]; [try discriminate |]);
       try contradiction; try (intros H'; discriminate)
     | intros H; try (now elim H); auto 12 ]).
Qed.

Lemma defaulted_may_omit (c : class) (f : field_decl) :
  In f (attributes c) -> fdefault f <> required_field -> may_omit c (fname f).
Proof.
  intros Hin Hdef.
  exists [], (call_without c (fname f)).
  destruct c; each_field Hin; simpl in Hdef; try (now elim Hdef);
    (eexists; split; [reflexivity | vm_compute; reflexivity]).
Qed.

Lemma required_not_omitted (c : class) (f : field_decl)
    (args : list value) (kw : kwargs) :
  In f (fields c) -> fdefault f = required_field ->
  supplied c args kw (fname f) = false ->
  exists e, construct c args kw = Raise e.
Proof.
  intros Hin Hreq Hunset.
  destruct (construct c args kw) as [node | e] eqn:E; [| now exists e].
  exfalso.
  pose proof (construct_binds _ _ _ _ E) as Hbinds.
  rewrite (binds_construct _ _ _ Hbinds) in E.
  destruct (init_fields (fields c) args kw) as [attrs |] eqn:Ei;
    [| discriminate].
  destruct (field_position c f Hin) as [i [Hi Hidx]].
  destruct (proj1 (supplied_at c args kw f i Hidx) Hunset) as [Ha Hl].
  destruct (init_fields_supplied _ _ _ _ _ _ Ei Hi Hreq) as [H | H];
    contradiction.
Qed.

(** [TargetIdentifier(value="x")] constructs a node although [rebind] is
    left out, and [rebind] is not among the seven. *)
Lemma rebind_may_be_omitted :
  construct AstTargetIdentifier [] [("value", VStr "x")] =
    Ok (VNode AstTargetIdentifier
          [UNKNOWN_LOCATION; UNKNOWN_LOCATION; VStr "x"; VBool false]) /\
  ~ only_listed_may_be_omitted.
Proof.
  split; [reflexivity |].
  intros Hclaim.
  assert (H : In (AstTargetIdentifier, "rebind") optional_in_spec).
  { apply Hclaim.
    - simpl. auto.
    - exists [], [("value", VStr "x")]. eexists. split; reflexivity. }
  simpl in H. repeat (destruct H as [H | H]; [discriminate |]). exact H.
Qed.

(** C2, amended.  The attributes that may be left out when a node is
    constructed are the seven the spec lists, whose default is [None], and
    the two the source gives another default: [rebind] of
    [AstTargetIdentifier] and [decorators] of [AstFunctionSignature].  Every
    other attribute of every class is mandatory: a call that does not supply
    it raises.  The attributes are those of the data model; the source span
    a node inherits is not one of them. *)
Theorem omittable_attributes (c : class) (f : field_decl) :
  In f (attributes c) ->
  (In (c, fname f) (optional_in_spec ++ defaulted_in_source) ->
   may_omit c (fname f)) /\
  (~ In (c, fname f) (optional_in_spec ++ defaulted_in_source) ->
   forall args kw, supplied c args kw (fname f) = false ->
                   exists e, construct c args kw = Raise e).
Proof.
  intros Hin. pose proof (listed_iff_default c f Hin) as Hlisted. split.
  - intros H. apply defaulted_may_omit; [exact Hin | now apply Hlisted].
  - intros H args kw Hunset.
    apply (required_not_omitted c f args kw (attributes_are_fields c f Hin));
      [| exact Hunset].
    destruct (fdefault f) as [| d] eqn:Ed; [reflexivity |].
    exfalso. apply H. apply Hlisted. discriminate.
Qed.

Lemma omittable_attributes_witness :
  may_omit AstFunctionSignature "decorators" /\
  forall args kw, supplied AstFunctionSignature args kw "name" = false ->
                  exists e, construct AstFunctionSignature args kw = Raise e.
Proof.
  split.
  - apply (omittable_attributes AstFunctionSignature
             (Field "decorators" (T_AstChildren (T_node AstDecorator))
                (default_value (AstChildren [])))).
    + simpl. auto.
    + simpl. auto 12.
  - apply (omittable_attributes AstFunctionSignature
             (Field "name" T_str required_field)).
    + simpl. auto.
    + simpl. intros H.
      repeat (destruct H as [H | H]; [discriminate |]). exact H.
Defined.

(** ** Function signatures *)

(** C6.  [AstFunctionSignature] called with [name] and [arguments], whatever
    their values, the empty sequence included, constructs a node whose
    [decorators] is the empty [AstChildren()], and whose [name] and
    [arguments] are the values given; called without [name], or without
    [arguments], it raises the error of [required_field]. *)
Theorem function_signature_construction :
  (forall name arguments,
     construct AstFunctionSignature []
       [("name", name); ("arguments", arguments)] =
     Ok (VNode AstFunctionSignature
           [UNKNOWN_LOCATION; UNKNOWN_LOCATION;
            AstChildren []; name; arguments])) /\
  (forall name arguments,
     let node := VNode AstFunctionSignature
                   [UNKNOWN_LOCATION; UNKNOWN_LOCATION;
                    AstChildren []; name; arguments] in
     getattr node "decorators" = Some (AstChildren []) /\
     getattr node "name" = Some name /\
     getattr node "arguments" = Some arguments) /\
  construct AstFunctionSignature []
    [("name", VStr "f"); ("arguments", AstChildren [])] =
    Ok (VNode AstFunctionSignature
          [UNKNOWN_LOCATION; UNKNOWN_LOCATION;
           AstChildren []; VStr "f"; AstChildren []]) /\
  (forall arguments,
     construct AstFunctionSignature [] [("arguments", arguments)] =
     Raise (ValueError "Field required.")) /\
  (forall name,
     construct AstFunctionSignature [] [("name", name)] =
     Raise (ValueError "Field required.")) /\
  construct AstFunctionSignature [] [] =
    Raise (ValueError "Field required.").
Proof.
  repeat split; intros; reflexivity.
Qed.

(** ** Macro arguments *)

(** [MacroArgument(value="1 2")] is constructed, and holds a string the
    pattern does not match. *)
Lemma macro_argument_not_checked :
  IDENTIFIER_PATTERN "1 2" = false /\
  construct AstMacroArgument [] [("value", VStr "1 2")] =
    Ok (VNode AstMacroArgument
         [UNKNOWN_LOCATION; UNKNOWN_LOCATION; VStr "1 2"]) /\
  ~ macro_argument_rejects_non_identifiers.
Proof.
  split; [reflexivity |]. split; [reflexivity |].
  intros Hclaim.
  apply (Hclaim "1 2" eq_refl [] [("value", VStr "1 2")]
           [UNKNOWN_LOCATION; UNKNOWN_LOCATION; VStr "1 2"]);
    reflexivity.
Qed.

(** C7, amended.  [AstMacroArgument] carries the identifier pattern as the
    class attribute [regex], next to the name of its parser; it adds no
    field and no check to [AstLiteral], and constructing the node does not
    consult the pattern: for every string, matched or not, the call with
    that [value] constructs a node that holds it. *)
Theorem macro_argument_construction :
  class_attr_lookup "parser" (cattrs (decl AstMacroArgument)) =
    Some (CStr "bolt_macro_argument") /\
  class_attr_lookup "regex" (cattrs (decl AstMacroArgument)) =
    Some (CRegex IDENTIFIER_PATTERN) /\
  cfields (decl AstMacroArgument) = [] /\
  forall s,
    construct AstMacroArgument [] [("value", VStr s)] =
      Ok (VNode AstMacroArgument
            [UNKNOWN_LOCATION; UNKNOWN_LOCATION; VStr s]) /\
    getattr (VNode AstMacroArgument
               [UNKNOWN_LOCATION; UNKNOWN_LOCATION; VStr s]) "value"
      = Some (VStr s).
Proof.
  repeat split; reflexivity.
Qed.

(** ** Immutability *)

Lemma every_class_frozen (c : class) : cfrozen (decl c) = true.
Proof. destruct c; reflexivity. Qed.

(** C4.  For every class of the module, every instance, every attribute
    name and every value: assigning the attribute raises
    [FrozenInstanceError], deleting it raises [FrozenInstanceError], and
    after either attempt every attribute of the node reads as before. *)
Theorem nodes_are_immutable
    (c : class) (attrs : list value) (name : string) (v : value) :
  let node := VNode c attrs in
  fst (setattr node name v) = Raise (FrozenInstanceError name) /\
  fst (delattr node name) = Raise (FrozenInstanceError name) /\
  (forall attr, getattr (snd (setattr node name v)) attr = getattr node attr) /\
  (forall attr, getattr (snd (delattr node name)) attr = getattr node attr).
Proof.
  unfold setattr, delattr. rewrite (every_class_frozen c). simpl.
  repeat split; reflexivity.
Qed.

(** ** The two families *)

Lemma families_disjoint (c : class) :
  issubclass c AstTarget && issubclass c AstExpression = false.
Proof. destruct c; reflexivity. Qed.

(** C5.  No class of the module is a subclass of both [AstTarget] and
    [AstExpression]; so an instance of a subclass of [AstTarget], and each
    of the four target variants is one, is not an instance of what an
    attribute annotated [AstExpression] admits, and an instance of a
    subclass of [AstExpression] is not one of what an attribute annotated
    [AstTarget] admits.  [AstTargetAttribute] and [AstTargetItem] declare
    their [value] as an [AstExpression]. *)
Theorem target_expression_disjoint :
  (forall c, issubclass c AstTarget && issubclass c AstExpression = false) /\
  (forall c attrs, issubclass c AstTarget = true ->
     conforms (T_node AstExpression) (VNode c attrs) = false) /\
  (forall c attrs, issubclass c AstExpression = true ->
     conforms (T_node AstTarget) (VNode c attrs) = false) /\
  (forall c attrs, In c target_variants ->
     conforms (T_node AstTarget) (VNode c attrs) = true /\
     conforms (T_node AstExpression) (VNode c attrs) = false) /\
  (forall c, In c [AstTargetAttribute; AstTargetItem] ->
     exists f, In f (fields c) /\ fname f = "value" /\
               fannot f = T_node AstExpression).
Proof.
  split; [exact families_disjoint |].
  split.
  { intros c attrs H. simpl. pose proof (families_disjoint c) as D.
    rewrite H in D. exact D. }
  split.
  { intros c attrs H. simpl. pose proof (families_disjoint c) as D.
    rewrite H, andb_true_r in D. exact D. }
  split.
  { intros c attrs H. simpl in H.
    repeat (destruct H as [<- | H]; [split; reflexivity |]). contradiction. }
  intros c H. simpl in H.
  destruct H as [<- | [<- | []]];
    exists (Field "value" (T_node AstExpression) required_field);
    (split; [simpl; auto | split; reflexivity]).
Qed.

Lemma target_expression_disjoint_witness :
  conforms (T_node AstExpression)
    (VNode AstTargetIdentifier
       [UNKNOWN_LOCATION; UNKNOWN_LOCATION; VStr "x"; VBool false]) = false /\
  conforms (T_node AstTarget)
    (VNode AstIdentifier [UNKNOWN_LOCATION; UNKNOWN_LOCATION; VStr "x"])
    = false.
Proof.
  destruct target_expression_disjoint as [_ [H1 [H2 _]]].
  split; [apply H1 | apply H2]; reflexivity.
Defined.

(** ** Equality *)

Lemma list_eqb_Forall2 {A B : Type} (eq : A -> B -> bool) (l1 : list A) :
  forall l2, list_eqb eq l1 l2 = true <-> Forall2 (fun x y => eq x y = true) l1 l2.
Proof.
  induction l1 as [| x l1 IH]; intros [| y l2]; simpl; split; intros H;
    try discriminate; try constructor; try (inversion H; fail).
  - apply andb_prop in H. tauto.
  - apply andb_prop in H. apply IH. tauto.
  - inversion H; subst. apply andb_true_intro. split; [assumption |].
    now apply IH.
Qed.

Lemma list_eqb_positions {A : Type} (eq : A -> A -> bool) (l1 : list A) :
  forall l2, List.length l1 = List.length l2 ->
    (list_eqb eq l1 l2 = true <->
     forall i, i < List.length l1 ->
       match nth_error l1 i, nth_error l2 i with
       | Some x, Some y => eq x y = true
       | _, _ => False
       end).
Proof.
  induction l1 as [| x l1 IH]; intros [| y l2] Hlen; simpl in *;
    try discriminate.
  - split; [intros _ i Hi; lia | reflexivity].
  - injection Hlen as Hlen. split.
    + intros H i Hi. apply andb_prop in H as [Hxy Hrest].
      destruct i as [| i]; simpl; [exact Hxy |].
      apply (proj1 (IH l2 Hlen) Hrest i). lia.
    + intros H. apply andb_true_intro. split.
      * apply (H 0). lia.
      * apply (IH l2 Hlen). intros i Hi. apply (H (S i)). lia.
Qed.

Lemma class_eqb_refl (c : class) : class_eqb c c = true.
Proof. unfold class_eqb. destruct (class_eq_dec c c); congruence. Qed.

Lemma class_eqb_eq (c1 c2 : class) : class_eqb c1 c2 = true -> c1 = c2.
Proof. unfold class_eqb. destruct (class_eq_dec c1 c2); congruence. Qed.

Lemma init_fields_length (kw : kwargs) (fs : list field_decl) :
  forall args attrs,
    init_fields fs args kw = Ok attrs ->
    List.length attrs = List.length fs.
Proof.
  induction fs as [| f fs IH]; intros args attrs H; simpl in H.
  - now injection H as <-.
  - destruct args as [| a args].
    + destruct (match lookup (fname f) kw with
                | Some v => Ok v
                | None => match fdefault f with
                          | required_field =>
                              Raise required_field_unset
                          | default_value d => Ok d
                          end
                end); simpl in H; [| discriminate].
      destruct (init_fields fs [] kw) as [rest |] eqn:Er;
        simpl in H; [| discriminate].
      injection H as <-. simpl. f_equal. eapply IH; eassumption.
    + destruct (init_fields fs args kw) as [rest |] eqn:Er;
        simpl in H; [| discriminate].
      injection H as <-. simpl. f_equal. eapply IH; eassumption.
Qed.

Lemma constructed_node (c : class) (args : list value) (kw : kwargs) (node : value) :
  construct c args kw = Ok node ->
  exists attrs, node = VNode c attrs /\
                List.length attrs = List.length (field_names c).
Proof.
  intros H. pose proof (construct_binds _ _ _ _ H) as Hbinds.
  rewrite (binds_construct _ _ _ Hbinds) in H.
  destruct (init_fields (fields c) args kw) as [attrs |] eqn:E;
    [| discriminate].
  injection H as <-. exists attrs. split; [reflexivity |].
  unfold field_names. rewrite length_map. eapply init_fields_length; eassumption.
Qed.

Lemma compared_eqb_positions {A : Type} (eq : A -> A -> bool) (l1 : list A) :
  forall flags l2, List.length l1 = List.length l2 ->
    (compared_eqb eq flags l1 l2 = true <->
     forall i, i < List.length l1 -> nth i flags true = true ->
       match nth_error l1 i, nth_error l2 i with
       | Some x, Some y => eq x y = true
       | _, _ => False
       end).
Proof.
  induction l1 as [| x l1 IH]; intros flags [| y l2] Hlen; simpl in *;
    try discriminate.
  - split; [intros _ i Hi; lia | reflexivity].
  - injection Hlen as Hlen. split.
    + intros H i Hi Hflag. apply andb_prop in H as [Hxy Hrest].
      destruct i as [| i]; simpl.
      * destruct flags as [| b flags]; simpl in *; [exact Hxy |].
        now subst b.
      * apply (proj1 (IH (tl flags) l2 Hlen) Hrest i); [lia |].
        destruct flags as [| b flags]; simpl in *; [now destruct i | exact Hflag].
    + intros H. apply andb_true_intro. split.
      * destruct (hd true flags) eqn:Eh; [| reflexivity].
        apply (H 0); [lia |]. now destruct flags.
      * apply (IH (tl flags) l2 Hlen). intros i Hi Hflag.
        apply (H (S i)); [lia |].
        destruct flags as [| b flags]; simpl in *; [now destruct i | exact Hflag].
Qed.

Lemma compare_flag_at (c : class) (i : nat) (f : field_decl) :
  nth_error (fields c) i = Some f ->
  nth i (compare_flags c) true = fcompare f.
Proof.
  intros H. apply nth_error_nth. unfold compare_flags.
  now rewrite nth_error_map, H.
Qed.

Lemma attribute_names_fields (c : class) (name : string) :
  In name (attribute_names c) <->
  exists f, In f (fields c) /\ fcompare f = true /\ fname f = name.
Proof.
  unfold attribute_names, attributes. rewrite in_map_iff. split.
  - intros [f [Hn Hf]]. apply filter_In in Hf as [Hin Hc]. now exists f.
  - intros [f [Hin [Hc Hn]]]. exists f. split; [exact Hn |].
    apply filter_In. now split.
Qed.

Lemma node_eq_attributes (rt : runtime) (c : class) (attrs1 attrs2 : list value) :
  List.length attrs1 = List.length (field_names c) ->
  List.length attrs2 = List.length (field_names c) ->
  (rich_eq rt (VNode c attrs1) (VNode c attrs2) = true <->
   forall name, In name (attribute_names c) ->
     attribute_equal rt (getattr (VNode c attrs1) name)
                        (getattr (VNode c attrs2) name)).
Proof.
  intros H1 H2. simpl rich_eq. rewrite class_eqb_refl. simpl.
  rewrite (compared_eqb_positions (rich_eq rt) attrs1 (compare_flags c) attrs2)
    by congruence.
  assert (Hlen : List.length (field_names c) = List.length (fields c))
    by (unfold field_names; apply length_map).
  split.
  - intros H name Hin.
    apply attribute_names_fields in Hin as [f [Hin [Hc <-]]].
    destruct (field_position c f Hin) as [i [Hi Hidx]].
    unfold attribute_equal, getattr. rewrite Hidx.
    apply H.
    + rewrite H1, Hlen. apply nth_error_Some. rewrite Hi. discriminate.
    + now rewrite (compare_flag_at c i f Hi).
  - intros H i Hi Hflag. rewrite H1, Hlen in Hi.
    destruct (nth_error (fields c) i) as [f |] eqn:Ef;
      [| apply nth_error_None in Ef; lia].
    rewrite (compare_flag_at c i f Ef) in Hflag.
    assert (Hin : In f (fields c)) by (eapply nth_error_In; eassumption).
    assert (Hidx : index_of (fname f) (field_names c) = Some i).
    { apply nth_index_of; [apply field_names_NoDup |].
      unfold field_names. now rewrite nth_error_map, Ef. }
    assert (Hname : In (fname f) (attribute_names c))
      by (apply attribute_names_fields; now exists f).
    specialize (H (fname f) Hname).
    unfold attribute_equal, getattr in H. rewrite Hidx in H. exact H.
Qed.

Lemma attribute_name_field (c : class) (name : string) :
  In name (attribute_names c) -> In name (field_names c).
Proof.
  intros H. apply attribute_names_fields in H as [f [Hin [_ <-]]].
  unfold field_names. now apply in_map.
Qed.

Lemma getattr_field (c : class) (attrs : list value) (name : string) (v : value) :
  getattr (VNode c attrs) name = Some v -> In name (field_names c).
Proof.
  unfold getattr. destruct (index_of name (field_names c)) as [i |] eqn:E;
    [| discriminate].
  intros _. eapply nth_error_In. apply index_of_nth. eassumption.
Qed.

(** C3.  Two nodes constructed by two calls of the same class compare equal
    exactly when every attribute of the one compares equal to the same
    attribute of the other; the attributes are those of the data model, the
    source span of a node is not compared.  Two sequence attributes compare equal exactly
    when they are equal item by item at every position; so when a sequence
    attribute of the one differs in order from that of the other, the nodes
    are unequal.  A node holds each value as the call supplied it: nothing
    is sorted, nothing is dropped. *)
Theorem structural_equality (rt : runtime) (c : class)
    (args1 args2 : list value) (kw1 kw2 : kwargs) (n1 n2 : value) :
  construct c args1 kw1 = Ok n1 ->
  construct c args2 kw2 = Ok n2 ->
  (rich_eq rt n1 n2 = true <->
   forall name, In name (attribute_names c) ->
     attribute_equal rt (getattr n1 name) (getattr n2 name)) /\
  (forall name l1 l2,
     getattr n1 name = Some (VTuple l1) ->
     getattr n2 name = Some (VTuple l2) ->
     (attribute_equal rt (getattr n1 name) (getattr n2 name) <->
      same_sequence rt l1 l2)) /\
  (forall name l1 l2,
     In name (attribute_names c) ->
     getattr n1 name = Some (VTuple l1) ->
     getattr n2 name = Some (VTuple l2) ->
     ~ same_sequence rt l1 l2 ->
     rich_eq rt n1 n2 = false) /\
  (forall f v, In f (fields c) -> argument c args1 kw1 (fname f) = Some v ->
     getattr n1 (fname f) = Some v).
Proof.
  intros C1 C2.
  assert (Hkept : forall f v, In f (fields c) ->
            argument c args1 kw1 (fname f) = Some v ->
            getattr n1 (fname f) = Some v).
  { intros f v Hin Harg. rewrite (construct_resolves c args1 kw1 n1 C1 f Hin).
    unfold resolved. now rewrite Harg. }
  destruct (constructed_node _ _ _ _ C1) as [attrs1 [-> L1]].
  destruct (constructed_node _ _ _ _ C2) as [attrs2 [-> L2]].
  pose proof (node_eq_attributes rt c attrs1 attrs2 L1 L2) as Hnode.
  split; [exact Hnode |]. split; [| split; [| exact Hkept]].
  - intros name l1 l2 G1 G2. rewrite G1, G2. unfold attribute_equal.
    simpl rich_eq. apply list_eqb_Forall2.
  - intros name l1 l2 Hname G1 G2 Hdiff.
    destruct (rich_eq rt (VNode c attrs1) (VNode c attrs2)) eqn:E;
      [| reflexivity].
    exfalso. apply Hdiff.
    pose proof (proj1 Hnode eq_refl name Hname) as Ha.
    rewrite G1, G2 in Ha. unfold attribute_equal in Ha. simpl rich_eq in Ha.
    now apply list_eqb_Forall2.
Qed.

(** The scenario of the spec: a tuple of [Value(1)] and [Value(2)], and the
    tuple of the two in the other order, are unequal. *)
Lemma structural_equality_witness :
  let one := VNode AstValue [UNKNOWN_LOCATION; UNKNOWN_LOCATION; VInt 1] in
  let two := VNode AstValue [UNKNOWN_LOCATION; UNKNOWN_LOCATION; VInt 2] in
  rich_eq object_runtime
    (VNode AstTuple
       [UNKNOWN_LOCATION; UNKNOWN_LOCATION; AstChildren [one; two]])
    (VNode AstTuple
       [UNKNOWN_LOCATION; UNKNOWN_LOCATION; AstChildren [two; one]])
  = false.
Proof.
  intros one two.
  destruct (structural_equality object_runtime AstTuple [] []
              [("items", AstChildren [one; two])]
              [("items", AstChildren [two; one])]
              (VNode AstTuple
                 [UNKNOWN_LOCATION; UNKNOWN_LOCATION; AstChildren [one; two]])
              (VNode AstTuple
                 [UNKNOWN_LOCATION; UNKNOWN_LOCATION; AstChildren [two; one]])
              eq_refl eq_refl) as [_ [_ [H _]]].
  apply (H "items" [one; two] [two; one]);
    [simpl; auto | reflexivity | reflexivity |].
  intros Hsame. inversion Hsame as [| x y l l' Hxy Hrest]; subst.
  discriminate Hxy.
Defined.

(** The source span is not compared: two nodes that differ in their
    location alone are equal. *)
Lemma span_is_not_compared (rt : runtime) (c : class)
    (location end_location location' end_location' : value)
    (rest : list value) :
  rich_eq rt (VNode c (location :: end_location :: rest))
             (VNode c (location' :: end_location' :: rest)) =
  rich_eq rt (VNode c (UNKNOWN_LOCATION :: UNKNOWN_LOCATION :: rest))
             (VNode c (UNKNOWN_LOCATION :: UNKNOWN_LOCATION :: rest)).
Proof. destruct c; reflexivity. Qed.

(** ** Hashing *)

Lemma int_hash_b2z (b : bool) : int_hash (Z.b2z b) = Z.b2z b.
Proof. destruct b; reflexivity. Qed.

Lemma identical_eq (k1 : foreign) (a1 : nat) (k2 : foreign) (a2 : nat) :
  identical k1 a1 k2 a2 = true -> k1 = k2 /\ a1 = a2.
Proof.
  unfold identical, foreign_eqb. intros H. apply andb_prop in H as [Hk Ha].
  apply Nat.eqb_eq in Ha. destruct (foreign_eq_dec k1 k2); [auto | discriminate].
Qed.

Lemma identical_refl (k : foreign) (a : nat) : identical k a k a = true.
Proof.
  unfold identical, foreign_eqb. rewrite Nat.eqb_refl.
  destruct (foreign_eq_dec k k); [reflexivity | congruence].
Qed.

Lemma compared_hashes_select {A : Type} (h : A -> option Z) (l : list A) :
  forall flags, compared_hashes h flags l = hash_all h (select flags l).
Proof.
  induction l as [| x l IH]; intros flags; simpl; [reflexivity |].
  destruct (hd true flags); simpl; now rewrite IH.
Qed.



Section Hashing.

Variable rt : runtime.
Hypothesis contract : hash_contract rt.

Lemma hash_all_agrees (l1 : list value) :
  Forall (hash_agrees rt) l1 ->
  forall l2, list_eqb (rich_eq rt) l1 l2 = true ->
             hash_all (py_hash rt) l1 = hash_all (py_hash rt) l2.
Proof.
  induction 1 as [| x l1 Hx Hl1 IH]; intros [| y l2] H; simpl in H;
    try discriminate; [reflexivity |].
  apply andb_prop in H as [Hxy Hrest]. simpl.
  rewrite (Hx y Hxy), (IH l2 Hrest). reflexivity.
Qed.

Lemma compared_hashes_agrees (l1 : list value) :
  Forall (hash_agrees rt) l1 ->
  forall flags l2,
    compared_eqb (rich_eq rt) flags l1 l2 = true ->
    compared_hashes (py_hash rt) flags l1 =
    compared_hashes (py_hash rt) flags l2.
Proof.
  induction 1 as [| x l1 Hx Hl1 IH]; intros flags [| y l2] H; simpl in H;
    try discriminate; [reflexivity |].
  apply andb_prop in H as [Hxy Hrest]. simpl.
  rewrite (IH (tl flags) l2 Hrest).
  destruct (hd true flags); [| reflexivity].
  now rewrite (Hx y Hxy).
Qed.

Lemma rich_eq_hash (a : value) : hash_agrees rt a.
Proof.
  induction a as [| x | m | s | l1 IH | l1 IH | c1 l1 IH | k1 a1]
    using value_rect_items;
    intros b H; destruct b as [| y | n | t | l2 | l2 | c2 l2 | k2 a2];
    simpl in H; try discriminate; simpl.
  - reflexivity.
  - apply Bool.eqb_prop in H. now subst.
  - apply Z.eqb_eq in H. subst. now rewrite int_hash_b2z.
  - apply Z.eqb_eq in H. subst. now rewrite int_hash_b2z.
  - apply Z.eqb_eq in H. now subst.
  - apply String.eqb_eq in H. now subst.
  - now rewrite (hash_all_agrees l1 IH l2 H).
  - reflexivity.
  - apply andb_prop in H as [Hc H]. apply class_eqb_eq in Hc. subst c2.
    now rewrite (compared_hashes_agrees l1 IH _ l2 H).
  - apply orb_prop in H as [H | H].
    + apply identical_eq in H as [-> ->]. reflexivity.
    + now apply contract.
Qed.

End Hashing.

Lemma hash_all_defined (rt : runtime) (l : list value) :
  (forall x, In x l -> py_hash rt x <> None) ->
  exists hs, hash_all (py_hash rt) l = Some hs.
Proof.
  induction l as [| x l IH]; intros H; simpl.
  - now exists [].
  - destruct (py_hash rt x) as [hx |] eqn:Ex;
      [| exfalso; apply (H x); simpl; auto].
    destruct IH as [hs ->]; [intros y Hy; apply H; simpl; auto |].
    now exists (hx :: hs).
Qed.

Lemma hash_all_Some (rt : runtime) (l : list value) (hs : list Z) :
  hash_all (py_hash rt) l = Some hs ->
  forall x, In x l -> py_hash rt x <> None.
Proof.
  revert hs. induction l as [| y l IH]; intros hs H x Hin; [contradiction |].
  simpl in H. destruct (py_hash rt y) as [hy |] eqn:Ey; [| discriminate].
  destruct (hash_all (py_hash rt) l) as [hs' |] eqn:El; [| discriminate].
  destruct Hin as [<- | Hin]; [congruence | eapply IH; eauto].
Qed.





Lemma object_runtime_contract : hash_contract object_runtime.
Proof.
  intros k1 a1 k2 a2 H. simpl in *.
  apply identical_eq in H as [_ ->]. reflexivity.
Qed.


(** ** Deferred roots *)

(** Equality of two [AstDeferredRoot] nodes is the comparison of their
    streams: the same object, or else whatever [TokenStream.__eq__]
    answers. *)
Lemma deferred_root_equality (rt : runtime) (a1 a2 : nat) :
  rich_eq rt (VNode AstDeferredRoot
                [UNKNOWN_LOCATION; UNKNOWN_LOCATION; VRef TokenStream a1])
             (VNode AstDeferredRoot
                [UNKNOWN_LOCATION; UNKNOWN_LOCATION; VRef TokenStream a2]) =
  Nat.eqb a1 a2 || ref_eq rt TokenStream a1 TokenStream a2.
Proof.
  simpl. unfold identical, foreign_eqb.
  destruct (foreign_eq_dec TokenStream TokenStream); [| congruence].
  simpl. now rewrite andb_true_r.
Qed.

Lemma deferred_root_same_stream (rt : runtime) (a : nat) :
  rich_eq rt (VNode AstDeferredRoot
                [UNKNOWN_LOCATION; UNKNOWN_LOCATION; VRef TokenStream a])
             (VNode AstDeferredRoot
                [UNKNOWN_LOCATION; UNKNOWN_LOCATION; VRef TokenStream a]) = true.
Proof. rewrite deferred_root_equality, Nat.eqb_refl. reflexivity. Qed.

(** Over two distinct streams the answer is that of [TokenStream.__eq__],
    which this module does not define. *)
Lemma deferred_root_distinct_streams (rt : runtime) (a1 a2 : nat) :
  a1 <> a2 ->
  rich_eq rt (VNode AstDeferredRoot
                [UNKNOWN_LOCATION; UNKNOWN_LOCATION; VRef TokenStream a1])
             (VNode AstDeferredRoot
                [UNKNOWN_LOCATION; UNKNOWN_LOCATION; VRef TokenStream a2]) =
  ref_eq rt TokenStream a1 TokenStream a2.
Proof.
  intros H. rewrite deferred_root_equality.
  apply Nat.eqb_neq in H. now rewrite H.
Qed.

(** ** The scenarios of the spec *)

Example identifier_pattern_samples :
  IDENTIFIER_PATTERN "n" = true /\
  IDENTIFIER_PATTERN "_value_1" = true /\
  IDENTIFIER_PATTERN "1x" = false /\
  IDENTIFIER_PATTERN EmptyString = false.
Proof. repeat split. Qed.

Example scenario_assignment :
  exists target value node,
    construct AstTargetIdentifier [] [("value", VStr "x"); ("rebind", VBool false)]
      = Ok target /\
    construct AstValue [] [("value", VInt 1)] = Ok value /\
    construct AstAssignment []
      [("operator", VStr "="); ("target", target); ("value", value)] = Ok node /\
    (t <- Ok node ;;
     match getattr t "target" with
     | Some t' => Ok (getattr t' "value", getattr t' "rebind")
     | None => Raise (AttributeError "target")
     end) = Ok (Some (VStr "x"), Some (VBool false)) /\
    (match getattr node "value" with
     | Some v => getattr v "value"
     | None => None
     end) = Some (VInt 1).
Proof. repeat eexists. Qed.

(** Positional arguments begin with the source span. *)
Example scenario_positional_arguments (l e : value) :
  construct AstTargetIdentifier [l; e; VStr "x"] [] =
    Ok (VNode AstTargetIdentifier [l; e; VStr "x"; VBool false]) /\
  construct AstTargetIdentifier [VStr "x"] [] =
    Raise (ValueError "Field required.") /\
  construct AstTargetIdentifier [l; e; VStr "x"] [("value", VStr "y")] =
    Raise (TypeError_multiple_values "value") /\
  construct AstTargetIdentifier [l; e; VStr "x"; VBool true; VNone] [] =
    Raise (TypeError_positional 4 5) /\
  construct AstTargetIdentifier [] [("value", VStr "x"); ("name", VStr "y")] =
    Raise (TypeError_unexpected_keyword "name") /\
  construct AstTargetIdentifier [] [("value", VStr "x"); ("location", l)] =
    Ok (VNode AstTargetIdentifier [l; UNKNOWN_LOCATION; VStr "x"; VBool false]).
Proof. repeat split. Qed.

Example scenario_module_root (commands : value) :
  construct AstModuleRoot [] [] = Raise (ValueError "Field required.") /\
  construct AstModuleRoot [] [("commands", commands)] =
    Ok (VNode AstModuleRoot [UNKNOWN_LOCATION; UNKNOWN_LOCATION; commands]).
Proof. split; reflexivity. Qed.

Example scenario_macro_match_argument (parser : nat) :
  let n := VNode AstMacroArgument
             [UNKNOWN_LOCATION; UNKNOWN_LOCATION; VStr "n"] in
  construct AstMacroMatchArgument []
    [("match_identifier", n);
     ("match_argument_parser", VRef AstResourceLocation parser)] =
  Ok (VNode AstMacroMatchArgument
        [UNKNOWN_LOCATION; UNKNOWN_LOCATION;
         n; VRef AstResourceLocation parser; VNone]).
Proof. reflexivity. Qed.

Example scenario_interpolation :
  let x := VNode AstIdentifier [UNKNOWN_LOCATION; UNKNOWN_LOCATION; VStr "x"] in
  construct AstInterpolation [] [("converter", VStr "str"); ("value", x)] =
  Ok (VNode AstInterpolation
        [UNKNOWN_LOCATION; UNKNOWN_LOCATION; VNone; VNone; VStr "str"; x]).
Proof. reflexivity. Qed.

(** * Further properties of the module *)

(** ** Exports and hierarchy *)

Lemma classes_complete (c : class) : In c classes.
Proof. destruct c; unfold classes; repeat (first [left; reflexivity | right]). Qed.

Lemma for_all_classes (p : class -> bool) :
  forallb p classes = true -> forall c, p c = true.
Proof.
  intros H c. rewrite forallb_forall in H. apply H, classes_complete.
Qed.

(** X1.  [__all__] names every class the module defines and nothing else,
    each once; no two class statements bind the same name. *)
Theorem all_names_the_classes :
  NoDup __all__ /\
  (forall name, In name __all__ <-> exists c, cname (decl c) = name) /\
  (forall c1 c2, cname (decl c1) = cname (decl c2) -> c1 = c2).
Proof.
  split; [apply distinct_NoDup; reflexivity |]. split.
  - intros name. split.
    + intros H.
      assert (Hb : forallb (fun n => mem n defined_names) __all__ = true)
        by (vm_compute; reflexivity).
      rewrite forallb_forall in Hb. specialize (Hb name H).
      apply mem_In in Hb. unfold defined_names in Hb.
      apply in_map_iff in Hb as [c [Hc _]]. now exists c.
    + intros [c <-]. apply mem_In.
      apply (for_all_classes (fun c => mem (cname (decl c)) __all__)).
      vm_compute. reflexivity.
  - intros c1 c2 H.
    pose (same := fun a b =>
            implb (String.eqb (cname (decl a)) (cname (decl b)))
                  (class_eqb a b)).
    assert (Hb : forallb (fun a => forallb (same a) classes) classes = true)
      by (vm_compute; reflexivity).
    pose proof (for_all_classes _ Hb c1) as H1. cbv beta in H1.
    pose proof (for_all_classes _ H1 c2) as H2. unfold same in H2.
    rewrite H, String.eqb_refl in H2. now apply class_eqb_eq.
Qed.

(** X2.  Inheritance inside the module is one level deep: a class whose
    base is a class of the module derives from [AstExpression], [AstTarget]
    or [AstMacroMatch], and these derive from [AstNode] and declare no
    field.  So the fields of a class are the fields of the mecha class its
    chain ends in, which begin with the source span, followed by the fields
    of its own class statement, in the order written: no field is declared
    again, none is moved.  The attributes of the data model are the fields
    after the span. *)
Theorem fields_are_declared_fields (c : class) :
  (forall b, cbase (decl c) = Bolt b ->
     In b [AstExpression; AstTarget; AstMacroMatch] /\
     cbase (decl b) = Host AstNode /\ cfields (decl b) = []) /\
  fields c = (host_fields (host_base c) ++ cfields (decl c))%list /\
  firstn 2 (fields c) = span_fields /\
  attributes c = skipn 2 (fields c).
Proof.
  split; [| split; [apply fields_split | split; destruct c; reflexivity]].
  intros b H. destruct c; simpl in H; try discriminate;
    injection H as <-; simpl; auto 6.
Qed.

Lemma fields_are_declared_fields_witness :
  field_names AstTargetItem =
    ["location"; "end_location"; "value"; "arguments"] /\
  cbase (decl AstTarget) = Host AstNode.
Proof.
  destruct (fields_are_declared_fields AstTargetItem) as [H1 [H2 _]].
  split; [unfold field_names; rewrite H2; reflexivity |].
  destruct (H1 AstTarget eq_refl) as [_ [H _]]. exact H.
Defined.

Lemma In_classes_dec (c : class) (l : list class) :
  existsb (class_eqb c) l = true <-> In c l.
Proof.
  rewrite existsb_exists. split.
  - intros [x [Hin Heq]]. apply class_eqb_eq in Heq. now subst.
  - intros H. exists c. split; [exact H | apply class_eqb_refl].
Qed.

Lemma family_members (b : class) (family : list class) :
  forallb (fun c => Bool.eqb (issubclass c b) (existsb (class_eqb c) family))
          classes = true ->
  forall c, issubclass c b = true <-> In c family.
Proof.
  intros H c. pose proof (for_all_classes _ H c) as Hc. cbv beta in Hc.
  apply Bool.eqb_prop in Hc. rewrite Hc. apply In_classes_dec.
Qed.

(** X3.  The subclasses of [AstExpression] are the twelve classes of
    [expression_family], those of [AstTarget] the five of [target_family],
    those of [AstMacroMatch] the three of [macro_match_family]; no class is
    in two of the three families.  [AstDictItem], [AstSlice], [AstUnpack]
    and [AstKeyword] are in none: they are not expressions. *)
Theorem families_are_closed (c : class) :
  (issubclass c AstExpression = true <-> In c expression_family) /\
  (issubclass c AstTarget = true <-> In c target_family) /\
  (issubclass c AstMacroMatch = true <-> In c macro_match_family) /\
  (issubclass c AstExpression && issubclass c AstMacroMatch = false) /\
  (issubclass c AstTarget && issubclass c AstMacroMatch = false) /\
  (In c [AstDictItem; AstSlice; AstUnpack; AstKeyword] ->
   issubclass c AstExpression = false).
Proof.
  split; [apply family_members; vm_compute; reflexivity |].
  split; [apply family_members; vm_compute; reflexivity |].
  split; [apply family_members; vm_compute; reflexivity |].
  split; [destruct c; reflexivity |].
  split; [destruct c; reflexivity |].
  intros H. simpl in H.
  repeat (destruct H as [<- | H]; [reflexivity |]). contradiction.
Qed.

Lemma families_are_closed_witness :
  issubclass AstSlice AstExpression = false /\
  In AstDict expression_family.
Proof.
  destruct (families_are_closed AstSlice) as [_ [_ [_ [_ [_ H]]]]].
  destruct (families_are_closed AstDict) as [[H' _] _].
  split; [apply H; simpl; auto | apply H'; reflexivity].
Defined.

(** ** How a call reaches the fields *)

(** The body of the constructor sees a call only through what it supplies
    at each position. *)
Lemma init_fields_ext (fs : list field_decl) :
  forall args kw args' kw',
    (forall i f, nth_error fs i = Some f ->
       supplied_at_position args kw i f = supplied_at_position args' kw' i f) ->
    init_fields fs args kw = init_fields fs args' kw'.
Proof.
  unfold supplied_at_position.
  induction fs as [| f fs IH]; intros args kw args' kw' H; [reflexivity |].
  pose proof (H 0 f eq_refl) as H0. simpl in H0.
  assert (Hrest : forall a1 a2,
            (forall i g, nth_error fs i = Some g ->
               match nth_error a1 i with
               | Some a => Some a | None => lookup (fname g) kw end =
               match nth_error a2 i with
               | Some a => Some a | None => lookup (fname g) kw' end) ->
            init_fields fs a1 kw = init_fields fs a2 kw')
    by (intros a1 a2 Hi; apply IH; exact Hi).
  assert (Hnext : forall i g, nth_error fs i = Some g ->
            match nth_error (tl args) i with
            | Some a => Some a | None => lookup (fname g) kw end =
            match nth_error (tl args') i with
            | Some a => Some a | None => lookup (fname g) kw' end).
  { intros i g Hg. specialize (H (S i) g Hg).
    destruct args; destruct args'; simpl in *;
      rewrite ?nth_error_nil_value in *; exact H. }
  destruct args as [| a args]; destruct args' as [| a' args']; simpl in *.
  - rewrite H0, (Hrest [] [] Hnext). reflexivity.
  - rewrite H0, (Hrest [] args' Hnext). reflexivity.
  - rewrite <- H0, (Hrest args [] Hnext). reflexivity.
  - injection H0 as ->. rewrite (Hrest args args' Hnext). reflexivity.
Qed.

Lemma lookup_app (k : string) (kw1 kw2 : kwargs) :
  lookup k (kw1 ++ kw2)%list =
  match lookup k kw1 with
  | Some v => Some v
  | None => lookup k kw2
  end.
Proof.
  induction kw1 as [| [k' v] kw1 IH]; simpl; [reflexivity |].
  destruct (String.eqb k' k); [reflexivity | exact IH].
Qed.

Lemma lookup_combine (names : list string) :
  NoDup names ->
  forall args i k, nth_error names i = Some k ->
    lookup k (combine names args) = nth_error args i.
Proof.
  induction 1 as [| k' rest Hnotin Hnd IH]; intros args i k Hk.
  - destruct i; discriminate.
  - destruct args as [| a args]; [now rewrite nth_error_nil_value |].
    destruct i as [| i]; simpl in *.
    + injection Hk as ->. now rewrite String.eqb_refl.
    + destruct (String.eqb k' k) eqn:E.
      * apply String.eqb_eq in E. subst k'. exfalso. apply Hnotin.
        eapply nth_error_In; eassumption.
      * now apply IH.
Qed.

Lemma check_keywords_None (positional named : list string) (kw : kwargs) :
  check_keywords positional named kw = None <->
  forall k v, In (k, v) kw -> mem k positional = false /\ mem k named = true.
Proof.
  induction kw as [| [k v] kw IH]; simpl.
  - split; [intros _ k v [] | reflexivity].
  - destruct (mem k positional) eqn:Ep.
    + split; [discriminate |]. intros H.
      destruct (H k v (or_introl eq_refl)) as [H' _]. congruence.
    + destruct (mem k named) eqn:En.
      * rewrite IH. split.
        -- intros H k' v' [Heq | Hin].
           ++ injection Heq as <- <-. now split.
           ++ now apply (H k' v').
        -- intros H k' v' Hin. apply (H k' v'). now right.
      * split; [discriminate |]. intros H.
        destruct (H k v (or_introl eq_refl)) as [_ H']. congruence.
Qed.

Lemma check_keywords_TypeError (positional named : list string) (kw : kwargs)
    (e : exception) :
  check_keywords positional named kw = Some e -> is_TypeError e = true.
Proof.
  induction kw as [| [k v] kw IH]; simpl; [discriminate |].
  destruct (mem k positional); [intros H; now injection H as <- |].
  destruct (mem k named); [exact IH | intros H; now injection H as <-].
Qed.

Lemma In_combine_name (names : list string) (args : list value)
    (k : string) (v : value) :
  In (k, v) (combine names args) -> In k names.
Proof. apply in_combine_l. Qed.

Lemma binds_keywords (c : class) (args : list value) (kw : kwargs) :
  binds c args kw = true ->
  binds c [] (as_keywords c args ++ kw)%list = true.
Proof.
  unfold binds. intros H. apply andb_prop in H as [_ H]. simpl.
  destruct (check_keywords (firstn (List.length args) (field_names c))
              (skipn (List.length args) (field_names c)) kw) eqn:E;
    [discriminate |].
  pose proof (proj1 (check_keywords_None _ _ _) E) as Hkw.
  destruct (check_keywords [] (field_names c) (as_keywords c args ++ kw)%list) eqn:E';
    [| reflexivity].
  assert (Hnone : check_keywords [] (field_names c) (as_keywords c args ++ kw)%list
                  = None).
  { apply check_keywords_None. intros k v Hin. split; [reflexivity |].
    apply mem_In. apply in_app_or in Hin as [Hin | Hin].
    - eapply In_combine_name. exact Hin.
    - destruct (Hkw k v Hin) as [_ Hn]. apply mem_In in Hn.
      rewrite <- (firstn_skipn (List.length args) (field_names c)).
      apply in_or_app. now right. }
  congruence.
Qed.

Lemma mem_firstn_position (names : list string) (n i : nat) (k : string) :
  NoDup names -> nth_error names i = Some k ->
  mem k (firstn n names) = false -> n <= i.
Proof.
  intros Hnd Hk Hmem.
  destruct (Nat.le_gt_cases n i) as [Hle | Hgt]; [exact Hle |].
  exfalso. assert (Hin : In k (firstn n names)).
  { eapply nth_error_In. rewrite nth_error_firstn.
    apply Nat.ltb_lt in Hgt. rewrite Hgt. exact Hk. }
  apply mem_In in Hin. congruence.
Qed.

(** A call that binds reaches the fields as the call does that passes every
    positional argument by the name of its field. *)
Lemma positional_keywords_eq (c : class) (args : list value) (kw : kwargs) :
  binds c args kw = true ->
  construct c args kw = construct c [] (as_keywords c args ++ kw)%list.
Proof.
  intros Hbinds.
  rewrite (binds_construct _ _ _ Hbinds).
  rewrite (binds_construct _ _ _ (binds_keywords _ _ _ Hbinds)).
  rewrite (init_fields_ext (fields c)
             args kw [] (as_keywords c args ++ kw)%list); [reflexivity |].
  intros i f Hf. unfold supplied_at_position.
  rewrite nth_error_nil_value, lookup_app.
  assert (Hk : nth_error (field_names c) i = Some (fname f))
    by (unfold field_names; now rewrite nth_error_map, Hf).
  unfold as_keywords.
  rewrite (lookup_combine _ (field_names_NoDup c) args i _ Hk).
  destruct (nth_error args i); reflexivity.
Qed.

(** X4.  Positional arguments fill the fields in the order of declaration,
    and the fields begin with the inherited source span: the first two
    positional arguments of every class are [location] and [end_location],
    the attributes of the class statement come after them.  A call that
    binds constructs what the call constructs that passes each positional
    argument as the keyword argument of the field at its position. *)
Theorem positional_arguments_follow_declaration
    (c : class) (args : list value) (kw : kwargs) :
  binds c args kw = true ->
  construct c args kw = construct c [] (as_keywords c args ++ kw)%list /\
  (forall l e rest, args = l :: e :: rest ->
     exists more,
       as_keywords c args = ("location", l) :: ("end_location", e) :: more).
Proof.
  intros H. split; [now apply positional_keywords_eq |].
  intros l e rest ->. destruct c; eexists; reflexivity.
Qed.

Lemma positional_arguments_follow_declaration_witness :
  construct AstFunctionSignature
    [VNone; VNone; AstChildren []; VStr "f"] [("arguments", AstChildren [])] =
  construct AstFunctionSignature []
    [("location", VNone); ("end_location", VNone);
     ("decorators", AstChildren []); ("name", VStr "f");
     ("arguments", AstChildren [])].
Proof.
  apply (positional_arguments_follow_declaration AstFunctionSignature
           [VNone; VNone; AstChildren []; VStr "f"]
           [("arguments", AstChildren [])]).
  reflexivity.
Defined.

(** ** Keyword arguments are a dictionary *)

Lemma lookup_In (kw : kwargs) :
  NoDup (map fst kw) ->
  forall k v, lookup k kw = Some v <-> In (k, v) kw.
Proof.
  induction kw as [| [k' v'] kw IH]; simpl; intros Hnd k v.
  - split; [discriminate | contradiction].
  - inversion Hnd as [| ? ? Hnotin Hnd']; subst.
    destruct (String.eqb k' k) eqn:E.
    + apply String.eqb_eq in E. subst k'. split.
      * intros H. injection H as <-. now left.
      * intros [H | H]; [now injection H as <- |].
        exfalso. apply Hnotin. apply (in_map fst) in H. exact H.
    + rewrite (IH Hnd'). split; [now right |].
      intros [H | H]; [| exact H].
      injection H as -> _. rewrite String.eqb_refl in E. discriminate.
Qed.

Lemma lookup_permutation (kw kw' : kwargs) (k : string) :
  NoDup (map fst kw) -> Permutation kw kw' -> lookup k kw = lookup k kw'.
Proof.
  intros Hnd Hperm.
  assert (Hnd' : NoDup (map fst kw'))
    by (eapply Permutation_NoDup; [apply Permutation_map; exact Hperm | exact Hnd]).
  destruct (lookup k kw) as [v |] eqn:E.
  - apply (lookup_In kw Hnd) in E. symmetry. apply (lookup_In kw' Hnd').
    eapply Permutation_in; eassumption.
  - destruct (lookup k kw') as [v' |] eqn:E'; [| reflexivity].
    apply (lookup_In kw' Hnd') in E'.
    apply (Permutation_in _ (Permutation_sym Hperm)) in E'.
    apply (lookup_In kw Hnd) in E'. congruence.
Qed.

(** X5.  The order of the keyword arguments does not matter: two calls that
    bind, with the same positional arguments and the same keyword
    arguments in two orders, construct the same. *)
Theorem keyword_order_is_irrelevant
    (c : class) (args : list value) (kw kw' : kwargs) :
  NoDup (map fst kw) ->
  Permutation kw kw' ->
  binds c args kw = true ->
  binds c args kw' = true /\ construct c args kw = construct c args kw'.
Proof.
  intros Hnd Hperm Hbinds.
  assert (Hbinds' : binds c args kw' = true).
  { unfold binds in *. apply andb_prop in Hbinds as [Hlen Hkw].
    rewrite Hlen. simpl.
    destruct (check_keywords (firstn (List.length args) (field_names c))
                (skipn (List.length args) (field_names c)) kw) eqn:E;
      [discriminate |].
    pose proof (proj1 (check_keywords_None _ _ _) E) as Hall.
    rewrite (proj2 (check_keywords_None _ _ kw')); [reflexivity |].
    intros k v Hin. apply (Hall k v).
    eapply Permutation_in; [apply Permutation_sym; exact Hperm | exact Hin]. }
  split; [exact Hbinds' |].
  rewrite (binds_construct _ _ _ Hbinds), (binds_construct _ _ _ Hbinds').
  rewrite (init_fields_ext (fields c) args kw args kw');
    [reflexivity |].
  intros i f _. unfold supplied_at_position.
  now rewrite (lookup_permutation kw kw' (fname f) Hnd Hperm).
Qed.

Lemma keyword_order_is_irrelevant_witness :
  construct AstKeyword [] [("name", VStr "k"); ("value", VNone)] =
  construct AstKeyword [] [("value", VNone); ("name", VStr "k")].
Proof.
  apply (keyword_order_is_irrelevant AstKeyword []
           [("name", VStr "k"); ("value", VNone)]
           [("value", VNone); ("name", VStr "k")]).
  - simpl. repeat constructor; simpl; intuition discriminate.
  - apply perm_swap.
  - reflexivity.
Defined.

(** ** What a call gives *)

Lemma init_fields_all_positional (kw : kwargs)
    (fs : list field_decl) :
  forall args, List.length args = List.length fs ->
               init_fields fs args kw = Ok args.
Proof.
  induction fs as [| f fs IH]; intros [| a args] Hlen; simpl in *;
    try discriminate; [reflexivity |].
  injection Hlen as Hlen. now rewrite (IH args Hlen).
Qed.

(** X6.  A node is rebuilt from its attributes: when a call has constructed
    a node, the call of the same class with the attribute values of the
    node as positional arguments, and the call with them as keyword
    arguments, construct the same node. *)
Theorem node_is_rebuilt_from_its_attributes
    (c : class) (args : list value) (kw : kwargs) (attrs : list value) :
  construct c args kw = Ok (VNode c attrs) ->
  construct c attrs [] = Ok (VNode c attrs) /\
  construct c [] (as_keywords c attrs) = Ok (VNode c attrs).
Proof.
  intros H. destruct (constructed_node _ _ _ _ H) as [attrs' [Heq Hlen]].
  injection Heq as <-.
  unfold field_names in Hlen. rewrite length_map in Hlen.
  assert (Hbinds : binds c attrs [] = true).
  { unfold binds. rewrite Hlen, Nat.leb_refl. reflexivity. }
  assert (Hpos : construct c attrs [] = Ok (VNode c attrs)).
  { rewrite (binds_construct _ _ _ Hbinds).
    now rewrite (init_fields_all_positional _ _ _ Hlen). }
  split; [exact Hpos |].
  rewrite <- Hpos, (positional_keywords_eq c attrs [] Hbinds).
  now rewrite app_nil_r.
Qed.

Lemma node_is_rebuilt_from_its_attributes_witness :
  let attrs := [UNKNOWN_LOCATION; UNKNOWN_LOCATION; VNone; VNone; VNone] in
  construct AstSlice attrs [] = Ok (VNode AstSlice attrs) /\
  construct AstSlice []
    [("location", UNKNOWN_LOCATION); ("end_location", UNKNOWN_LOCATION);
     ("start", VNone); ("stop", VNone); ("step", VNone)] =
    Ok (VNode AstSlice attrs).
Proof.
  apply (node_is_rebuilt_from_its_attributes AstSlice [] []
           [UNKNOWN_LOCATION; UNKNOWN_LOCATION; VNone; VNone; VNone]).
  reflexivity.
Defined.

Lemma binds_false_TypeError (c : class) (args : list value) (kw : kwargs) :
  binds c args kw = false ->
  exists e, construct c args kw = Raise e /\ is_TypeError e = true.
Proof.
  unfold binds, construct, field_names. intros H.
  destruct (List.length (fields c) <? List.length args)%nat eqn:Elen.
  - eexists. split; reflexivity.
  - apply Nat.ltb_ge in Elen. apply Nat.leb_le in Elen.
    rewrite Elen in H. simpl in H.
    destruct (check_keywords _ _ kw) as [e |] eqn:E; [| discriminate].
    exists e. split; [reflexivity |].
    eapply check_keywords_TypeError. exact E.
Qed.

Lemma init_fields_never_TypeError (kw : kwargs)
    (fs : list field_decl) :
  forall args e, init_fields fs args kw = Raise e ->
                 is_TypeError e = false.
Proof.
  induction fs as [| f fs IH]; intros args e H; simpl in H; [discriminate |].
  destruct args as [| a args].
  - destruct (lookup (fname f) kw) as [v |]; simpl in H.
    + destruct (init_fields fs [] kw) eqn:E; simpl in H;
        [discriminate |]. injection H as <-. eapply IH; eassumption.
    + destruct (fdefault f); simpl in H.
      * now injection H as <-.
      * destruct (init_fields fs [] kw) eqn:E; simpl in H;
          [discriminate |]. injection H as <-. eapply IH; eassumption.
  - destruct (init_fields fs args kw) eqn:E; simpl in H;
      [discriminate |]. injection H as <-. eapply IH; eassumption.
Qed.

Lemma some_required_unset (c : class) (args : list value) (kw : kwargs)
    (fs : list field_decl) :
  (forall f, In f fs -> fdefault f = required_field ->
             supplied c args kw (fname f) = true) \/
  (exists f, In f fs /\ fdefault f = required_field /\
             supplied c args kw (fname f) = false).
Proof.
  induction fs as [| g fs IH].
  - left. intros f [].
  - destruct IH as [IH | [f [Hin [Hreq Hs]]]];
      [| right; exists f; simpl; auto].
    destruct (fdefault g) as [| d] eqn:Eg.
    + destruct (supplied c args kw (fname g)) eqn:Es.
      * left. intros f [<- | Hin] Hreq; auto.
      * right. exists g. simpl. auto.
    + left. intros f [<- | Hin] Hreq; [congruence | auto].
Qed.

(** X7.  The outcome of a call.  It constructs a node exactly when its
    arguments bind and supply every required attribute.  It raises a
    [TypeError] exactly when its arguments do not bind, whether or not a
    required attribute is missing as well.  It raises
    [ValueError("Field required.")] exactly when its arguments bind and
    leave a required attribute unset. *)
Theorem outcome_of_a_call (c : class) (args : list value) (kw : kwargs) :
  ((exists node, construct c args kw = Ok node) <->
   binds c args kw = true /\
   forall f, In f (fields c) -> fdefault f = required_field ->
             supplied c args kw (fname f) = true) /\
  ((exists e, construct c args kw = Raise e /\ is_TypeError e = true) <->
   binds c args kw = false) /\
  (construct c args kw = Raise (ValueError "Field required.") <->
   binds c args kw = true /\
   exists f, In f (fields c) /\ fdefault f = required_field /\
             supplied c args kw (fname f) = false).
Proof.
  assert (Hok : (exists node, construct c args kw = Ok node) <->
                binds c args kw = true /\
                forall f, In f (fields c) -> fdefault f = required_field ->
                          supplied c args kw (fname f) = true).
  { split.
    - intros [node H]. pose proof (construct_binds _ _ _ _ H) as Hbinds.
      split; [exact Hbinds |]. intros f Hin Hreq.
      destruct (supplied c args kw (fname f)) eqn:Es; [reflexivity |].
      destruct (required_not_omitted c f args kw Hin Hreq Es) as [e He].
      congruence.
    - intros [Hbinds Hall].
      destruct (construct_succeeds c args kw Hbinds Hall) as [attrs H].
      now exists (VNode c attrs). }
  split; [exact Hok |]. split.
  - split.
    + intros [e [H He]]. destruct (binds c args kw) eqn:Hbinds; [| reflexivity].
      rewrite (binds_construct _ _ _ Hbinds) in H.
      destruct (init_fields (fields c) args kw) eqn:E;
        simpl in H; [discriminate |]. injection H as <-.
      rewrite (init_fields_never_TypeError _ _ _ _ E) in He. discriminate.
    + apply binds_false_TypeError.
  - split.
    + intros H. destruct (binds c args kw) eqn:Hbinds.
      * split; [reflexivity |].
        destruct (some_required_unset c args kw (fields c)) as [Hall | Hex];
          [| exact Hex].
        destruct (proj2 Hok (conj eq_refl Hall)) as [node Hnode]. congruence.
      * destruct (binds_false_TypeError c args kw Hbinds) as [e [He Ht]].
        rewrite H in He. injection He as <-. discriminate.
    + intros [Hbinds [f [Hin [Hreq Hs]]]].
      now apply (unset_required_raises c args kw f).
Qed.

Lemma outcome_of_a_call_witness :
  (exists e, construct AstIdentifier [VNone; VNone; VStr "x"; VStr "y"] []
               = Raise e /\
             is_TypeError e = true) /\
  construct AstIdentifier [VStr "x"; VStr "y"] [] =
    Raise (ValueError "Field required.").
Proof.
  destruct (outcome_of_a_call AstIdentifier
              [VNone; VNone; VStr "x"; VStr "y"] []) as [_ [[_ H1] _]].
  destruct (outcome_of_a_call AstIdentifier [VStr "x"; VStr "y"] [])
    as [_ [_ [_ H2]]].
  split; [apply H1; reflexivity |].
  apply H2. split; [reflexivity |].
  exists (Field "value" T_str required_field).
  split; [simpl; auto | split; reflexivity].
Defined.

Lemma mem_false_not_In (k : string) (ks : list string) :
  ~ In k ks -> mem k ks = false.
Proof.
  intros H. destruct (mem k ks) eqn:E; [| reflexivity].
  apply mem_In in E. contradiction.
Qed.

Lemma class_attr_lookup_In (k : string) (l : list (string * class_attr))
    (a : class_attr) :
  class_attr_lookup k l = Some a -> In k (map fst l).
Proof.
  induction l as [| [k' a'] l IH]; simpl; [discriminate |].
  destruct (String.eqb k' k) eqn:E.
  - apply String.eqb_eq in E. now left.
  - intros H. right. now apply IH.
Qed.

(** X8.  The constructor takes fields only.  A keyword argument that is
    not the name of a field, declared or inherited, makes the call raise a
    [TypeError], whatever else is passed; the class attributes [parser] and
    [regex] are no fields, so they cannot be passed. *)
Theorem only_fields_are_parameters
    (c : class) (args : list value) (kw : kwargs) (k : string) (v : value) :
  In (k, v) kw ->
  (~ In k (field_names c) \/
   exists a, class_attr_lookup k (cattrs (decl c)) = Some a) ->
  exists e, construct c args kw = Raise e /\ is_TypeError e = true.
Proof.
  intros Hin Hk.
  assert (Hnot : ~ In k (field_names c)).
  { destruct Hk as [Hk | [a Ha]]; [exact Hk |].
    apply class_attr_lookup_In in Ha.
    destruct c; simpl in Ha; try contradiction;
      repeat (destruct Ha as [<- | Ha]; [simpl; intuition discriminate |]);
      contradiction. }
  apply binds_false_TypeError.
  destruct (binds c args kw) eqn:Hbinds; [| reflexivity].
  exfalso. unfold binds in Hbinds. apply andb_prop in Hbinds as [_ Hkw].
  destruct (check_keywords (firstn (List.length args) (field_names c))
              (skipn (List.length args) (field_names c)) kw) eqn:E;
    [discriminate |].
  destruct (proj1 (check_keywords_None _ _ _) E k v Hin) as [_ Hn].
  apply mem_In in Hn. apply Hnot.
  rewrite <- (firstn_skipn (List.length args) (field_names c)).
  apply in_or_app. now right.
Qed.

Lemma only_fields_are_parameters_witness :
  exists e,
    construct AstMacroArgument []
      [("value", VStr "n"); ("parser", VStr "p")] = Raise e /\
    is_TypeError e = true.
Proof.
  apply (only_fields_are_parameters AstMacroArgument []
           [("value", VStr "n"); ("parser", VStr "p")] "parser" (VStr "p")).
  - simpl. auto.
  - right. eexists. reflexivity.
Defined.

(** ** Shapes that mirror each other *)

Lemma same_fields_construct (c1 c2 : class) (args : list value) (kw : kwargs)
    (attrs : list value) :
  fields c1 = fields c2 ->
  construct c1 args kw = Ok (VNode c1 attrs) ->
  construct c2 args kw = Ok (VNode c2 attrs).
Proof.
  intros Hf H. pose proof (construct_binds _ _ _ _ H) as Hbinds.
  assert (Hbinds' : binds c2 args kw = true)
    by (unfold binds, field_names in *; now rewrite <- Hf).
  rewrite (binds_construct _ _ _ Hbinds) in H.
  rewrite (binds_construct _ _ _ Hbinds'), <- Hf.
  destruct (init_fields (fields c1) args kw) as [a |] eqn:E;
    simpl in H; [| discriminate].
  injection H as <-. reflexivity.
Qed.

(** X9.  [AstTargetAttribute] declares the fields of [AstAttribute], and
    [AstTargetItem] those of [AstLookup]: same names, same annotations,
    same order.  So a call constructs the expression node exactly when the
    same call constructs the target node, with the same attribute values;
    and the two nodes are never equal. *)
Theorem targets_mirror_expressions (e t : class) :
  In (e, t) mirrored ->
  fields e = fields t /\
  (forall args kw attrs,
     construct e args kw = Ok (VNode e attrs) <->
     construct t args kw = Ok (VNode t attrs)) /\
  (forall rt attrs attrs', rich_eq rt (VNode e attrs) (VNode t attrs') = false).
Proof.
  intros Hin.
  assert (Hf : fields e = fields t).
  { simpl in Hin. destruct Hin as [H | [H | []]]; injection H as <- <-;
      reflexivity. }
  split; [exact Hf |]. split.
  - intros args kw attrs. split; apply same_fields_construct; congruence.
  - intros rt attrs attrs'. simpl in Hin.
    destruct Hin as [H | [H | []]]; injection H as <- <-; reflexivity.
Qed.

Lemma targets_mirror_expressions_witness :
  let x := VNode AstIdentifier [UNKNOWN_LOCATION; UNKNOWN_LOCATION; VStr "x"] in
  construct AstTargetItem [] [("value", x); ("arguments", AstChildren [])] =
  Ok (VNode AstTargetItem
        [UNKNOWN_LOCATION; UNKNOWN_LOCATION; x; AstChildren []]).
Proof.
  intros x.
  destruct (targets_mirror_expressions AstLookup AstTargetItem) as [_ [H _]].
  - simpl. auto.
  - apply H. reflexivity.
Defined.

(** ** Annotations *)

Lemma defaults_conform (c : class) (f : field_decl) (d : value) :
  In f (fields c) -> fdefault f = default_value d ->
  conforms (fannot f) d = true.
Proof.
  intros Hin Hd. destruct c; each_field Hin; simpl in Hd;
    try discriminate; injection Hd as <-; reflexivity.
Qed.

(** X10.  Every default written in a class statement is a value the
    annotation of its field admits; so a call that supplies only values
    their annotations admit constructs a node all of whose attributes are
    values their annotations admit. *)
Theorem construction_keeps_annotations
    (c : class) (args : list value) (kw : kwargs) (node : value) :
  well_typed_call c args kw ->
  construct c args kw = Ok node ->
  well_typed_node c node /\
  (forall f d, In f (fields c) -> fdefault f = default_value d ->
               conforms (fannot f) d = true).
Proof.
  intros Hcall H. split; [| intros f d; apply defaults_conform].
  intros f v Hin Hget.
  rewrite (construct_resolves c args kw node H f Hin) in Hget.
  injection Hget as <-. unfold resolved.
  destruct (argument c args kw (fname f)) as [v |] eqn:Ea;
    [now apply (Hcall f v) |].
  destruct (fdefault f) as [| d] eqn:Ed; [| now apply (defaults_conform c f d)].
  exfalso.
  assert (Hs : supplied c args kw (fname f) = false)
    by (unfold supplied; now rewrite Ea).
  destruct (required_not_omitted c f args kw Hin Ed Hs) as [e He]. congruence.
Qed.

Lemma construction_keeps_annotations_witness :
  well_typed_node AstTargetIdentifier
    (VNode AstTargetIdentifier
       [UNKNOWN_LOCATION; UNKNOWN_LOCATION; VStr "x"; VBool false]).
Proof.
  apply (construction_keeps_annotations AstTargetIdentifier []
           [("value", VStr "x")]).
  - intros f v Hin Ha. each_field Hin; vm_compute in Ha;
      try discriminate. injection Ha as <-. reflexivity.
  - reflexivity.
Defined.

(** ** Equality is an equivalence *)

Lemma list_eqb_refl (eq : value -> value -> bool) (l : list value) :
  Forall (fun x => eq x x = true) l -> list_eqb eq l l = true.
Proof.
  induction 1 as [| x l Hx _ IH]; simpl; [reflexivity |].
  now rewrite Hx, IH.
Qed.

Lemma compared_eqb_refl (eq : value -> value -> bool) (l : list value) :
  Forall (fun x => eq x x = true) l ->
  forall flags, compared_eqb eq flags l l = true.
Proof.
  induction 1 as [| x l Hx _ IH]; intros flags; simpl; [reflexivity |].
  rewrite Hx, IH. now destruct (hd true flags).
Qed.

Lemma compared_eqb_sym (eq : value -> value -> bool) (l1 : list value) :
  Forall (fun x => forall y, eq x y = eq y x) l1 ->
  forall flags l2, compared_eqb eq flags l1 l2 = compared_eqb eq flags l2 l1.
Proof.
  induction 1 as [| x l1 Hx _ IH]; intros flags [| y l2]; simpl;
    try reflexivity.
  now rewrite Hx, IH.
Qed.

Lemma compared_eqb_trans (eq : value -> value -> bool) (l1 : list value) :
  Forall (fun x => forall y z, eq x y = true -> eq y z = true ->
                               eq x z = true) l1 ->
  forall flags l2 l3,
    compared_eqb eq flags l1 l2 = true -> compared_eqb eq flags l2 l3 = true ->
    compared_eqb eq flags l1 l3 = true.
Proof.
  induction 1 as [| x l1 Hx _ IH]; intros flags [| y l2] [| z l3] H12 H23;
    simpl in *; try discriminate; [reflexivity |].
  apply andb_prop in H12 as [Hxy H12]. apply andb_prop in H23 as [Hyz H23].
  rewrite (IH (tl flags) l2 l3 H12 H23).
  destruct (hd true flags); [| reflexivity].
  now rewrite (Hx y z Hxy Hyz).
Qed.

Lemma rich_eq_refl (rt : runtime) (v : value) : rich_eq rt v v = true.
Proof.
  induction v as [| b | n | s | l IH | l IH | c l IH | k a]
    using value_rect_items; simpl.
  - reflexivity.
  - now destruct b.
  - apply Z.eqb_refl.
  - apply String.eqb_refl.
  - now apply list_eqb_refl.
  - now apply list_eqb_refl.
  - rewrite class_eqb_refl. now apply compared_eqb_refl.
  - now rewrite identical_refl.
Qed.

Lemma list_eqb_sym (eq : value -> value -> bool) (l1 : list value) :
  Forall (fun x => forall y, eq x y = eq y x) l1 ->
  forall l2, list_eqb eq l1 l2 = list_eqb eq l2 l1.
Proof.
  induction 1 as [| x l1 Hx _ IH]; intros [| y l2]; simpl; try reflexivity.
  now rewrite Hx, IH.
Qed.

Lemma class_eqb_sym (c1 c2 : class) : class_eqb c1 c2 = class_eqb c2 c1.
Proof.
  unfold class_eqb.
  destruct (class_eq_dec c1 c2), (class_eq_dec c2 c1); congruence.
Qed.

Lemma identical_sym (k1 : foreign) (a1 : nat) (k2 : foreign) (a2 : nat) :
  identical k1 a1 k2 a2 = identical k2 a2 k1 a1.
Proof.
  unfold identical, foreign_eqb. rewrite (Nat.eqb_sym a1 a2).
  destruct (foreign_eq_dec k1 k2), (foreign_eq_dec k2 k1); congruence.
Qed.

Lemma list_eqb_trans (eq : value -> value -> bool) (l1 : list value) :
  Forall (fun x => forall y z, eq x y = true -> eq y z = true ->
                               eq x z = true) l1 ->
  forall l2 l3, list_eqb eq l1 l2 = true -> list_eqb eq l2 l3 = true ->
                list_eqb eq l1 l3 = true.
Proof.
  induction 1 as [| x l1 Hx _ IH]; intros [| y l2] [| z l3] H12 H23;
    simpl in *; try discriminate; [reflexivity |].
  apply andb_prop in H12 as [Hxy H12]. apply andb_prop in H23 as [Hyz H23].
  now rewrite (Hx y z Hxy Hyz), (IH l2 l3 H12 H23).
Qed.

Section Equivalence.

Variable rt : runtime.
Hypothesis foreign : foreign_equivalence rt.

Lemma rich_eq_sym (a : value) : forall b, rich_eq rt a b = rich_eq rt b a.
Proof.
  induction a as [| x | m | s | l1 IH | l1 IH | c1 l1 IH | k1 a1]
    using value_rect_items;
    intros [| y | n | t | l2 | l2 | c2 l2 | k2 a2]; simpl; try reflexivity.
  - now destruct x, y.
  - apply Z.eqb_sym.
  - apply Z.eqb_sym.
  - apply Z.eqb_sym.
  - apply String.eqb_sym.
  - now apply list_eqb_sym.
  - now apply list_eqb_sym.
  - rewrite class_eqb_sym.
    destruct (class_eqb c2 c1) eqn:Ec; [| reflexivity].
    apply class_eqb_eq in Ec. subst c2. simpl. now apply compared_eqb_sym.
  - rewrite identical_sym. f_equal. apply (proj1 foreign).
Qed.

Lemma rich_eq_trans (a : value) :
  forall b c, rich_eq rt a b = true -> rich_eq rt b c = true ->
              rich_eq rt a c = true.
Proof.
  induction a as [| x | m | s | l1 IH | l1 IH | c1 l1 IH | k1 a1]
    using value_rect_items;
    intros [| y | n | t | l2 | l2 | c2 l2 | k2 a2]
           [| z | p | u | l3 | l3 | c3 l3 | k3 a3] Hab Hbc;
    simpl in *; try discriminate; try reflexivity;
    try (apply Bool.eqb_prop in Hab);
    try (apply Bool.eqb_prop in Hbc);
    try (apply Z.eqb_eq in Hab);
    try (apply Z.eqb_eq in Hbc);
    try (subst; first [ apply Z.eqb_refl
                      | now destruct z
                      | now destruct y
                      | now destruct x ]).
  - destruct x, z; simpl in *; try reflexivity; lia.
  - apply String.eqb_eq in Hab. apply String.eqb_eq in Hbc. subst.
    apply String.eqb_refl.
  - eapply list_eqb_trans; eassumption.
  - eapply list_eqb_trans; eassumption.
  - apply andb_prop in Hab as [Hc1 Hab]. apply andb_prop in Hbc as [Hc2 Hbc].
    apply class_eqb_eq in Hc1. apply class_eqb_eq in Hc2. subst.
    rewrite class_eqb_refl. simpl. eapply compared_eqb_trans; eassumption.
  - apply (proj2 foreign k1 a1 k2 a2 k3 a3); assumption.
Qed.

End Equivalence.

Lemma object_runtime_equivalence : foreign_equivalence object_runtime.
Proof.
  split.
  - intros k1 a1 k2 a2. apply identical_sym.
  - unfold ref_same. simpl. intros k1 a1 k2 a2 k3 a3 H12 H23.
    rewrite orb_diag in *.
    apply identical_eq in H12 as [-> ->]. exact H23.
Qed.

(** X11.  Equality of nodes is an equivalence.  Every value equals itself,
    a foreign object too, whatever its [__eq__] answers, for an item is
    compared by identity first.  When the foreign classes compare
    symmetrically and transitively, so do nodes. *)
Theorem equality_is_an_equivalence (rt : runtime) :
  foreign_equivalence rt ->
  (forall a, rich_eq rt a a = true) /\
  (forall a b, rich_eq rt a b = rich_eq rt b a) /\
  (forall a b c, rich_eq rt a b = true -> rich_eq rt b c = true ->
                 rich_eq rt a c = true).
Proof.
  intros H. split; [apply rich_eq_refl |].
  split; [intros a; now apply rich_eq_sym | intros a; now apply rich_eq_trans].
Qed.

Lemma equality_is_an_equivalence_witness :
  let yes := VNode AstValue [UNKNOWN_LOCATION; UNKNOWN_LOCATION; VBool true] in
  let one := VNode AstValue [UNKNOWN_LOCATION; UNKNOWN_LOCATION; VInt 1] in
  rich_eq object_runtime yes one = rich_eq object_runtime one yes.
Proof.
  intros yes one.
  destruct (equality_is_an_equivalence object_runtime
              object_runtime_equivalence) as [_ [H _]].
  apply H.
Defined.

(** ** What the hash sees *)

(** X12.  The hash of a node is taken from the values of its compared
    attributes alone, not from its class: two nodes whose attributes
    compare equal pairwise hash alike, of whatever classes they are, while
    nodes of two classes never compare equal. *)
Theorem hash_ignores_the_class (rt : runtime)
    (c1 c2 : class) (attrs1 attrs2 : list value) :
  hash_contract rt ->
  list_eqb (rich_eq rt) (compared c1 attrs1) (compared c2 attrs2) = true ->
  py_hash rt (VNode c1 attrs1) = py_hash rt (VNode c2 attrs2) /\
  (c1 <> c2 -> rich_eq rt (VNode c1 attrs1) (VNode c2 attrs2) = false).
Proof.
  intros Hc Heq. split.
  - simpl. rewrite !compared_hashes_select. f_equal.
    apply (hash_all_agrees rt); [| exact Heq].
    apply Forall_forall. intros x _. apply (rich_eq_hash rt Hc).
  - intros Hne. simpl. unfold class_eqb.
    destruct (class_eq_dec c1 c2); [contradiction | reflexivity].
Qed.

Lemma hash_ignores_the_class_witness :
  let one := VNode AstValue [UNKNOWN_LOCATION; UNKNOWN_LOCATION; VInt 1] in
  let attrs := [UNKNOWN_LOCATION; UNKNOWN_LOCATION; AstChildren [one]] in
  py_hash object_runtime (VNode AstTuple attrs) =
    py_hash object_runtime (VNode AstList attrs) /\
  rich_eq object_runtime (VNode AstTuple attrs) (VNode AstList attrs) = false.
Proof.
  intros one attrs.
  destruct (hash_ignores_the_class object_runtime AstTuple AstList attrs attrs
              object_runtime_contract eq_refl) as [H1 H2].
  split; [exact H1 | apply H2; discriminate].
Defined.

(** X13.  A node can be hashed exactly when each of its compared attribute
    values can: one attribute that holds a list makes [hash] of the node
    raise. *)
Theorem node_hashable_iff_attributes
    (rt : runtime) (c : class) (attrs : list value) :
  (py_hash rt (VNode c attrs) <> None <->
   forall x, In x (compared c attrs) -> py_hash rt x <> None) /\
  (forall items, In (VList items) (compared c attrs) ->
                 py_hash rt (VNode c attrs) = None).
Proof.
  assert (Hiff : py_hash rt (VNode c attrs) <> None <->
                 forall x, In x (compared c attrs) -> py_hash rt x <> None).
  { simpl. rewrite compared_hashes_select. fold (compared c attrs). split.
    - intros H. destruct (hash_all (py_hash rt) (compared c attrs)) as [hs |] eqn:E;
        [| now elim H]. eapply hash_all_Some; eassumption.
    - intros H. destruct (hash_all_defined rt (compared c attrs) H) as [hs ->].
      discriminate. }
  split; [exact Hiff |].
  intros items Hin.
  destruct (py_hash rt (VNode c attrs)) as [h |] eqn:E; [| reflexivity].
  exfalso. assert (Hsome : Some h <> @None Z) by discriminate.
  apply (proj1 Hiff Hsome (VList items) Hin). reflexivity.
Qed.

Lemma node_hashable_iff_attributes_witness :
  py_hash object_runtime
    (VNode AstFunctionSignature
       [UNKNOWN_LOCATION; UNKNOWN_LOCATION;
        AstChildren []; VStr "f"; VList []]) = None.
Proof.
  destruct (node_hashable_iff_attributes object_runtime AstFunctionSignature
              [UNKNOWN_LOCATION; UNKNOWN_LOCATION;
               AstChildren []; VStr "f"; VList []]) as [_ H].
  apply (H []). simpl. auto.
Defined.

(** ** What a sequence of arguments may hold *)

Lemma classes_of_items (a : annotation) (allowed : list class) :
  forallb (fun c => Bool.eqb (conforms a (VNode c []))
                             (existsb (class_eqb c) allowed)) classes = true ->
  (forall c attrs, conforms a (VNode c attrs) = conforms a (VNode c [])) ->
  forall c attrs, conforms a (VNode c attrs) = true <-> In c allowed.
Proof.
  intros H Hattrs c attrs. rewrite Hattrs.
  pose proof (for_all_classes _ H c) as Hc. cbv beta in Hc.
  apply Bool.eqb_prop in Hc. rewrite Hc. apply In_classes_dec.
Qed.

(** X14.  The items of [arguments].  In an [AstCall] the annotation admits
    the nodes of the expression family, [AstUnpack] and [AstKeyword], and
    no other node: no [AstSlice].  In an [AstLookup] and in an
    [AstTargetItem] it admits the expression family and [AstSlice], and no
    other: no [AstUnpack], no [AstKeyword].  No sequence of arguments
    admits a target. *)
Theorem items_of_arguments :
  (exists a, item_annotation AstCall "arguments" = Some a /\
     forall c attrs, conforms a (VNode c attrs) = true <->
                     In c (expression_family ++ [AstUnpack; AstKeyword])%list) /\
  (forall owner, In owner [AstLookup; AstTargetItem] ->
     exists a, item_annotation owner "arguments" = Some a /\
       forall c attrs, conforms a (VNode c attrs) = true <->
                       In c (expression_family ++ [AstSlice])%list) /\
  (forall owner a c attrs,
     In owner [AstCall; AstLookup; AstTargetItem] ->
     item_annotation owner "arguments" = Some a ->
     In c target_family -> conforms a (VNode c attrs) = false).
Proof.
  split; [| split].
  - eexists. split; [reflexivity |].
    apply classes_of_items; [vm_compute; reflexivity | reflexivity].
  - intros owner H. simpl in H.
    destruct H as [<- | [<- | []]]; (eexists; split; [reflexivity |]);
      (apply classes_of_items; [vm_compute; reflexivity | reflexivity]).
  - intros owner a c attrs Ho Ha Hc. simpl in Ho, Hc.
    destruct Ho as [<- | [<- | [<- | []]]]; injection Ha as <-;
      repeat (destruct Hc as [<- | Hc]; [reflexivity |]); contradiction.
Qed.

Lemma items_of_arguments_witness :
  exists a, item_annotation AstTargetItem "arguments" = Some a /\
            conforms a (VNode AstSlice [VNone; VNone; VNone]) = true.
Proof.
  destruct items_of_arguments as [_ [H _]].
  destruct (H AstTargetItem) as [a [Ha Hc]]; [simpl; auto |].
  exists a. split; [exact Ha |]. apply Hc. simpl. auto 20.
Defined.

